(** * Pourbaix diagram construction (pymatgen/analysis/pourbaix/maker.py)

    A shallow embedding of [PourbaixDiagram]: the entry classifier, the
    composition solver, the multi-entry synthesizer, the hull-space
    projector, the lower-envelope selector and the diagram assembler,
    followed by the properties of the construction.

    Conventions of the embedding.
    - Python objects live in a store ([heap]); an entry is a reference into
      it, so that in-place mutation ([entry.scale], [entry.correction +=])
      and object identity (the same [MultiEntry] appended twice) are kept.
    - Exceptions are values of [exn]; a computation that can raise returns
      [exn + A].
    - Numbers are the instances of the interface [Num]: the operations the
      source applies to Python floats.  The definitions and most theorems
      hold for every instance; order laws are assumed only where a
      statement needs them.  [QNum] is the exact-arithmetic instance used to
      run the definitions.
    - numpy, pyhull and the entry classes are outside the file: they are
      parameters ([solve], [det], [ConvexHull], the class [EntryContract]). *)

From Stdlib Require Import QArith Qabs.
From stdpp Require Import gmap strings list sorting.

Open Scope string_scope.
Open Scope nat_scope.
Open Scope list_scope.

(** ** Exceptions *)

Inductive exn : Type :=
| StandardError (msg : string)
| LinAlgError (msg : string)
| IndexError
| ValueError
| AttributeError
| ZeroDivisionError
| UnboundLocalError (var : string)
| ExternalError (name : string).

Definition raise {A : Type} (e : exn) : exn + A := inl e.
Definition ret {A : Type} (a : A) : exn + A := inr a.

Definition bind {A B : Type} (m : exn + A) (k : A -> exn + B) : exn + B :=
  match m with
  | inl e => inl e
  | inr a => k a
  end.

Notation "'do' x <- m ; k" := (bind m (fun x => k))
  (at level 10, x pattern, m at level 100, k at level 200).

(** [l[i]] on a Python list: [IndexError] out of range. *)
Definition getitem {A : Type} (l : list A) (i : nat) : exn + A :=
  match l !! i with
  | Some a => inr a
  | None => inl IndexError
  end.

(** [for x in l: acc = body acc x], stopping at the first exception. *)
Fixpoint for_each {A S : Type} (l : list A) (acc : S) (body : S -> A -> exn + S)
  : exn + S :=
  match l with
  | [] => inr acc
  | x :: rest => do acc' <- body acc x; for_each rest acc' body
  end.

(** [[f x for x in l]] where [f] can raise. *)
Fixpoint map_exn {A B : Type} (f : A -> exn + B) (l : list A) : exn + list B :=
  match l with
  | [] => inr []
  | x :: rest => do y <- f x; do ys <- map_exn f rest; inr (y :: ys)
  end.

(** ** Numbers *)

Class Num (R : Type) : Type := {
  flit : Z -> Z -> R;          (* the decimal literal m * 10^e *)
  fof_nat : nat -> R;          (* an int used in float arithmetic *)
  fadd : R -> R -> R;
  fsub : R -> R -> R;
  fmul : R -> R -> R;
  fdiv : R -> R -> R;
  fneg : R -> R;
  fabs : R -> R;
  feq : R -> R -> bool;        (* x == y *)
  flt : R -> R -> bool;        (* x < y *)
  fle : R -> R -> bool         (* x <= y *)
}.

(** ** The entry contract

    [PourbaixEntry] and [MultiEntry] are defined in
    pymatgen/analysis/pourbaix/entry.py and [Composition] in pymatgen/core;
    the maker only uses the attributes below.  [St] is the state of one
    entry object, [Comp] a composition. *)

Class EntryContract (R Comp St : Type) : Type := {
  phase_type : St -> string;
  composition : St -> Comp;
  normalization_factor : St -> R;
  nH2O : St -> R;
  conc_term : St -> R;
  npH : St -> R;
  nPhi : St -> R;
  g0 : St -> R;
  correction : St -> R;
  set_correction : R -> St -> St;          (* entry.correction = v *)
  scale : R -> St -> St;                   (* entry.scale(factor) *)
  multi_state : list St -> list R -> St;   (* the state MultiEntry.__init__ computes *)
  amount : Comp -> string -> R;            (* comp[Element(symbol)] *)
  reduced_factor : Comp -> R;              (* comp.get_reduced_composition_and_factor()[1] *)
  comp_elements : Comp -> list string;     (* [el.symbol for el in comp.elements] *)
  formula_is_ion : string -> bool;         (* re.search(r"\[([^\[\]]+)\]|\(aq\)", formula) *)
  Ion_from_formula : string -> exn + Comp;
  Composition_from_formula : string -> exn + Comp
}.

(** ** The object store *)

Definition ref := nat.

Inductive object (R St : Type) : Type :=
| PourbaixEntry (st : St)
| MultiEntry (entrylist : list ref) (weights : list R) (st : St).

Arguments PourbaixEntry {R St} st.
Arguments MultiEntry {R St} entrylist weights st.

Definition state_of {R St : Type} (o : object R St) : St :=
  match o with
  | PourbaixEntry st => st
  | MultiEntry _ _ st => st
  end.

Definition with_state {R St : Type} (o : object R St) (st : St) : object R St :=
  match o with
  | PourbaixEntry _ => PourbaixEntry st
  | MultiEntry es ws _ => MultiEntry es ws st
  end.

Definition weights_of {R St : Type} (o : object R St) : option (list R) :=
  match o with
  | PourbaixEntry _ => None
  | MultiEntry _ ws _ => Some ws
  end.

Abbreviation heap R St := (list (object R St)).

(** Reading an attribute of [entry]: a reference that is not an entry
    object has no such attribute. *)
Definition attr {R St : Type} (h : heap R St) (entry : ref) : exn + St :=
  match h !! entry with
  | Some o => inr (state_of o)
  | None => inl AttributeError
  end.

(** Writing the state of the object behind [entry]. *)
Definition store {R St : Type} (h : heap R St) (entry : ref) (st : St) : heap R St :=
  match h !! entry with
  | Some o => <[entry := with_state o st]> h
  | None => h
  end.

(** Allocation of a new object. *)
Definition alloc {R St : Type} (h : heap R St) (o : object R St) : heap R St * ref :=
  (h ++ [o], length h).

(** ** Small numeric helpers (numpy on short vectors) *)

(** A hull point [[npH, nPhi, g0]]. *)
Definition point (R : Type) : Type := (R * R * R)%type.

Section Numeric.
Context {R : Type} `{Num R}.

Definition f0 : R := flit 0 0.           (* 0.0 *)
Definition f1 : R := flit 1 0.           (* 1.0 *)
Definition PREFAC : R := flit 591 (-4).  (* 0.0591 *)
Definition MU_H2O : R := fneg (flit 24583 (-4)).   (* -2.4583 *)
Definition VERTICAL_EPS : R := flit 1 (-8).        (* 1e-8 *)

(** [x / y] on Python floats. *)
Definition pydiv (x y : R) : exn + R :=
  if feq y f0 then raise ZeroDivisionError else ret (fdiv x y).

Definition fsum (l : list R) : R := foldl fadd f0 l.

(** [np.dot] of two vectors. *)
Definition dot (u v : list R) : R := fsum (zip_with fmul u v).

(** [np.average] of a list. *)
Definition average (l : list R) : R := fdiv (fsum l) (fof_nat (length l)).

(** [(np.array(A)).T] for a list of rows of length [n]. *)
Definition transpose (n : nat) (A : list (list R)) : list (list R) :=
  map (fun j => map (fun row => nth j row f0) A) (seq 0 n).

#[local] Abbreviation point := (point R).

Definition px (p : point) : R := fst (fst p).
Definition py (p : point) : R := snd (fst p).
Definition pz (p : point) : R := snd p.

Definition psub (p q : point) : point :=
  (fsub (px p) (px q), fsub (py p) (py q), fsub (pz p) (pz q)).

Definition pneg (p : point) : point := (fneg (px p), fneg (py p), fneg (pz p)).

(** [np.cross] of two 3-vectors. *)
Definition cross (a b : point) : point :=
  (fsub (fmul (py a) (pz b)) (fmul (pz a) (py b)),
   fsub (fmul (pz a) (px b)) (fmul (px a) (pz b)),
   fsub (fmul (px a) (py b)) (fmul (py a) (px b))).

Definition pdot (a b : point) : R :=
  fadd (fadd (fmul (px a) (px b)) (fmul (py a) (py b))) (fmul (pz a) (pz b)).
End Numeric.

(** The laws of a total order that sorting relies on; they hold of the
    numbers that are not NaN. *)
Definition order_laws (R : Type) `{Num R} : Prop :=
  (forall x y : R, flt x y = true -> fle x y = true) /\
  (forall x y : R, flt x y = false -> fle y x = true) /\
  (forall x y z : R, fle x y = true -> fle y z = true -> fle x z = true).


(** ** The diagram *)

Section Maker.
Context {R : Type} `{Num R}.
Context {Comp St : Type} `{EntryContract R Comp St}.

(** numpy and pyhull. *)
Variable solve : list (list R) -> list R -> exn + list R.          (* np.linalg.solve *)
Variable det : list (list R) -> R.                                 (* np.linalg.det *)
Variable ConvexHull : list (point R) -> exn + list (nat * nat * nat).
                                              (* ConvexHull(points).vertices *)

#[local] Abbreviation heap := (heap R St).
#[local] Abbreviation point := (point R).

(** *** Entry classifier: the first loop of [__init__] *)

Definition phase_type_msg : string :=
  "Incorrect Phase type - needs to be                 Pourbaix entry of phase type Ion/Solid".

Fixpoint classify (h : heap) (entries _solid_entries _ion_entries : list ref)
  : exn + (list ref * list ref) :=
  match entries with
  | [] => ret (_solid_entries, _ion_entries)
  | entry :: rest =>
      do st <- attr h entry;
      if String.eqb (phase_type st) "Solid" then
        classify h rest (_solid_entries ++ [entry]) _ion_entries
      else if String.eqb (phase_type st) "Ion" then
        classify h rest _solid_entries (_ion_entries ++ [entry])
      else raise (StandardError phase_type_msg)
  end.

(** *** Composition solver: the [if comp_dict:] branch of [__init__] *)

Definition parse_formula (comp : string) : exn + Comp :=
  if formula_is_ion comp then Ion_from_formula comp
  else Composition_from_formula comp.

Definition solve_composition (comp_dict : list (string * R))
  : exn + (list string * list (string * R)) :=
  let pourbaix_elements := map fst comp_dict in
  let w := map snd comp_dict in
  do A <- map_exn (fun comp =>
            do comp_obj <- parse_formula comp;
            ret (map (fun elt => amount comp_obj elt) pourbaix_elements))
          pourbaix_elements;
  let A := transpose (length pourbaix_elements) A in
  let s := dot (map fsum A) w in
  let A := map (map (fun a => fdiv a s)) A in
  do x <- solve A w;
  ret (pourbaix_elements, zip pourbaix_elements x).

(** *** Multi-entry synthesizer: [_process_multielement_entries] *)

(** [itertools.combinations(l, r)]. *)
Fixpoint combinations {A : Type} (r : nat) (l : list A) {struct l} : list (list A) :=
  match r, l with
  | 0, _ => [[]]
  | S _, [] => []
  | S r', x :: xs => map (cons x) (combinations r' xs) ++ combinations r xs
  end.

Definition red_fac_of (entry : St) : R :=
  if String.eqb (phase_type entry) "Solid"
  then reduced_factor (composition entry)
  else f1.

(** [entry.composition[Element(el)] / red_fac]. *)
Definition reduced_amount (entry : St) (el : string) : exn + R :=
  pydiv (amount (composition entry) el) (red_fac_of entry).

(** [sum_nel] after its accumulation loop over the target elements. *)
Definition sum_nel_of (elt_list : list string) (entry : St) : exn + R :=
  for_each elt_list f0
    (fun sum_nel el => do q <- reduced_amount entry el; ret (fadd sum_nel q)).

(** The right-hand side [b], from the pivot [entry0]. *)
Definition system_b (_elt_comp : list (string * R)) (entry0 : St) : exn + list R :=
  do sum_nel <- sum_nel_of (map fst _elt_comp) entry0;
  map_exn (fun '(el, c) =>
             do q <- reduced_amount entry0 el;
             ret (fsub q (fmul c sum_nel)))
          (tail _elt_comp).

(** What the entry [entries[entry_list[j]]] writes into [A]: the values
    [A[i-1][j-1]] for [i = 1 .. N-1]. *)
Definition system_column (_elt_comp : list (string * R)) (entry : St) : exn + list R :=
  do sum_nel <- sum_nel_of (map fst _elt_comp) entry;
  map_exn (fun '(el, c) =>
             do q <- reduced_amount entry el;
             ret (fsub (fmul c sum_nel) q))
          (tail _elt_comp).

(** The matrix [A]: row [i-1] is the element [elt_list[i]], column [j-1]
    the entry [entries[entry_list[j]]]. *)
Definition system_A (h : heap) (_elt_comp : list (string * R)) (others : list ref)
  : exn + list (list R) :=
  do columns <- map_exn (fun entry => do st <- attr h entry;
                                      system_column _elt_comp st) others;
  ret (transpose (length (tail _elt_comp)) columns).

(** ['Singular matrix' in err.message]. *)
Definition is_singular_message (msg : string) : bool :=
  match String.index 0 "Singular matrix" msg with
  | Some _ => true
  | None => false
  end.

(** The store and the local variables of [_process_multielement_entries]
    that the loop changes ([processed_entries], [self._entry_components_dict],
    [super_entry], [entry_list]); the last two are unbound ([None]) until
    first assigned. *)
Record locals : Type := {
  l_heap : heap;
  l_processed_entries : list ref;
  l_components_dict : gmap ref (list nat);
  l_super_entry : option ref;
  l_entry_list : option (list nat)
}.

(** The locals before the loop. *)
Definition init_locals (h : heap) : locals :=
  {| l_heap := h; l_processed_entries := [];
     l_components_dict := ∅;
     l_super_entry := None; l_entry_list := None |}.

(** The locals after an iteration that ends by [continue]. *)
Definition skipped (s : locals) (combo : list nat) : locals :=
  {| l_heap := l_heap s;
     l_processed_entries := l_processed_entries s;
     l_components_dict := l_components_dict s;
     l_super_entry := l_super_entry s;
     l_entry_list := Some combo |}.

(** The linear system of one combination: [multi_entries], [A] and [b]. *)
Definition combination_system (h : heap) (entries : list ref)
    (_elt_comp : list (string * R)) (combo : list nat)
  : exn + (list ref * list (list R) * list R) :=
  do multi_entries <- map_exn (getitem entries) combo;
  match multi_entries with
  | [] => raise IndexError                       (* entry_list[0] *)
  | entry0 :: others =>
      do st0 <- attr h entry0;
      do b <- system_b _elt_comp st0;
      do A <- system_A h _elt_comp others;
      ret (multi_entries, A, b)
  end.

(** How one iteration of the loop ends: by [continue], by falling through
    to [MultiEntry(multi_entries, weights)], or by an exception. *)
Inductive outcome : Type :=
| Skip
| Build (multi_entries : list ref) (weights : list R) (sts : list St)
| Fail (e : exn).

Definition try_combination (h : heap) (entries : list ref)
    (_elt_comp : list (string * R)) (combo : list nat) : outcome :=
  match combination_system h entries _elt_comp combo with
  | inl e => Fail e
  | inr (multi_entries, A, b) =>
      match solve A b with
      | inl (LinAlgError msg) =>
          if is_singular_message msg then Skip
          else Fail (StandardError "Unknown Error message!")
      | inl e => Fail e
      | inr weights =>
          if negb (forallb (fun w => flt f0 w) weights) then Skip
          else
            let weights := f1 :: weights in
            match map_exn (attr h) multi_entries with
            | inl e => Fail e
            | inr sts => Build multi_entries weights sts
            end
      end
  end.

Definition is_skip (o : outcome) : bool :=
  match o with Skip => true | _ => false end.
Definition is_build (o : outcome) : bool :=
  match o with Build _ _ _ => true | _ => false end.
Definition is_fail (o : outcome) : bool :=
  match o with Fail _ => true | _ => false end.

(** One iteration of [for entry_list in list_of_entries]. *)
Definition synth_step (entries : list ref) (_elt_comp : list (string * R))
    (s : locals) (combo : list nat) : exn + locals :=
  match try_combination (l_heap s) entries _elt_comp combo with
  | Fail e => raise e
  | Skip => ret (skipped s combo)
  | Build multi_entries weights sts =>
      let (h', se) := alloc (l_heap s)
                        (MultiEntry multi_entries weights (multi_state sts weights)) in
      ret {| l_heap := h';
             l_processed_entries := l_processed_entries s ++ [se];
             l_components_dict := <[se := combo]> (l_components_dict s);
             l_super_entry := Some se;
             l_entry_list := Some combo |}
  end.

(** The [MultiEntry] objects the feasible combinations give, in order. *)
Definition built_object (h : heap) (entries : list ref)
    (_elt_comp : list (string * R)) (combo : list nat) : option (object R St) :=
  match try_combination h entries _elt_comp combo with
  | Build multi_entries weights sts =>
      Some (MultiEntry multi_entries weights (multi_state sts weights))
  | _ => None
  end.

Definition built_objects (h : heap) (entries : list ref)
    (_elt_comp : list (string * R)) (combos : list (list nat)) : list (object R St) :=
  omap (built_object h entries _elt_comp) combos.

(** [entry] is a [MultiEntry] whose weights are 1.0 followed by positive
    numbers. *)
Definition positive_weights (h : heap) (entry : ref) : Prop :=
  exists o ws,
    h !! entry = Some o /\ weights_of o = Some (f1 :: ws) /\
    Forall (fun w => flt f0 w = true) ws.

Definition _process_multielement_entries (h : heap)
    (_unprocessed_entries : list ref) (_elt_comp : list (string * R))
  : exn + (list ref * gmap ref (list nat) * heap) :=
  let N := length _elt_comp in
  let entries := _unprocessed_entries in
  let list_of_entries := combinations N (seq 0 (length entries)) in
  do s <- for_each list_of_entries (init_locals h) (synth_step entries _elt_comp);
  (* self._entry_components_dict[super_entry] = entry_list *)
  match l_entry_list s with
  | None => raise (UnboundLocalError "entry_list")
  | Some last_combo =>
      match l_super_entry s with
      | None => raise (UnboundLocalError "super_entry")
      | Some se =>
          ret (l_processed_entries s ++ [se],
               <[se := last_combo]> (l_components_dict s),
               l_heap s)
      end
  end.

(** *** Hull-space projector: [_create_conv_hull_data] *)

(** The body of [for entry in self._all_entries], on the store. *)
Definition project_entry (h : heap) (entry : ref) : exn + heap :=
  do st <- attr h entry;
  (* entry.scale(entry.normalization_factor) *)
  let h := store h entry (scale (normalization_factor st) st) in
  (* entry.correction += (- MU_H2O * entry.nH2O + entry.conc_term) *)
  do st <- attr h entry;
  let term := fadd (fmul (fneg MU_H2O) (nH2O st)) (conc_term st) in
  ret (store h entry (set_correction (fadd (correction st) term) st)).

(** [list.sort(key=...)]: a stable sort comparing keys with [<].  [x] is
    put in front of the first element whose key is not below its own. *)
Fixpoint insert_by_key {A : Type} (key : A -> R) (x : A) (l : list A) : list A :=
  match l with
  | [] => [x]
  | y :: rest =>
      if flt (key y) (key x) then y :: insert_by_key key x rest
      else x :: y :: rest
  end.

Definition sort_by_key {A : Type} (key : A -> R) (l : list A) : list A :=
  foldr (insert_by_key key) [] l.

Definition row_of (st : St) : point := (npH st, nPhi st, g0 st).

(** [_process_conv_hull_data]: returns [(data, self._qhull_entries)]. *)
Definition _process_conv_hull_data (h : heap) (entries_to_process : list ref)
  : exn + (list point * list ref) :=
  do data <- map_exn (fun entry => do st <- attr h entry; ret (row_of st))
               entries_to_process;
  let temp := zip data entries_to_process in
  let temp := sort_by_key (fun x => pz (fst x)) temp in
  match temp with
  | [] => raise ValueError               (* [data, ...] = zip( *[]) *)
  | _ => ret (map fst temp, map snd temp)
  end.

(** [_create_conv_hull_data]: returns the data, [self._qhull_entries],
    [self._all_entries], [self._entry_components_dict] and the store. *)
Definition _create_conv_hull_data (h : heap) (_multielement : bool)
    (_unprocessed_entries : list ref) (_elt_comp : list (string * R))
  : exn + (list point * list ref * list ref * gmap ref (list nat) * heap) :=
  do (_all_entries, comps, h) <-
       (if _multielement
        then _process_multielement_entries h _unprocessed_entries _elt_comp
        else ret (_unprocessed_entries, ∅, h));
  do h <- for_each _all_entries h project_entry;
  let entries_to_process := _all_entries in
  do (data, _qhull_entries) <- _process_conv_hull_data h entries_to_process;
  ret (data, _qhull_entries, _all_entries, comps, h).

(** *** Lower-envelope selector *)

Definition dim : nat := 3.   (* len(self._qhull_data[0]): a row is [npH, nPhi, g0] *)

(** [np.sort] of one hull facet. *)
Definition sort_facet (f : nat * nat * nat) : list nat :=
  let '(a, b, c) := f in merge_sort Nat.le [a; b; c].

(** The facet's vertex rows with the last column set to 1. *)
Definition facetmatrix (_qhull_data : list point) (facet : list nat)
  : exn + list (list R) :=
  map_exn (fun vertex =>
             do p <- getitem _qhull_data vertex;
             ret [px p; py p; f1])
          facet.

(** The test that keeps a facet in [vert_facets_removed]. *)
Definition not_vertical (_qhull_data : list point) (facet : list nat) : exn + bool :=
  do m <- facetmatrix _qhull_data facet;
  ret (flt VERTICAL_EPS (fabs (det m))).

Definition filter_exn {A : Type} (keep : A -> exn + bool) (l : list A)
  : exn + list A :=
  for_each l [] (fun kept x => do b <- keep x; ret (if b then kept ++ [x] else kept)).

Definition vertex_set (facets : list (list nat)) : gset nat :=
  foldl (fun vs facet => foldl (fun vs vertex => vs ∪ {[vertex]}) vs facet) ∅ facets.

(** The centre [c] of the vertices that survive the vertical-facet removal. *)
Definition centroid (_qhull_data : list point) (vertices : list nat) : exn + point :=
  do ps <- map_exn (getitem _qhull_data) vertices;
  ret (average (map px ps), average (map py ps), average (map pz ps)).

(** [new_qhull_data]: every surviving vertex shifted by [c]. *)
Definition shift_origin (_qhull_data : list point) (vertices : list nat) (c : point)
  : exn + list point :=
  for_each vertices _qhull_data
    (fun new_qhull_data vertex =>
       do p <- getitem new_qhull_data vertex;
       ret (<[vertex := psub p c]> new_qhull_data)).

(** The normal [n] of a facet after its orientation ([n = -n] when
    [val < 0]). *)
Definition oriented_normal (new_qhull_data : list point) (facet : list nat)
  : exn + point :=
  do v1 <- getitem facet 1;
  do p1 <- getitem new_qhull_data v1;
  do v0 <- getitem facet 0;
  do p0 <- getitem new_qhull_data v0;
  let a := psub p1 p0 in
  do v2 <- getitem facet 2;
  do p2 <- getitem new_qhull_data v2;
  let b := psub p2 p0 in
  let n := cross a b in
  let val := pdot n p0 in
  ret (if flt val f0 then pneg n else n).

(** The test that keeps a facet in [final_facets]. *)
Definition on_lower_hull (new_qhull_data : list point) (facet : list nat) : exn + bool :=
  do n <- oriented_normal new_qhull_data facet;
  ret (fle (pz n) f0).

Definition new_qhull_data_of (_qhull_data : list point)
    (vert_facets_removed : list (list nat)) : exn + list point :=
  let vertices := elements (vertex_set vert_facets_removed) in
  do c <- centroid _qhull_data vertices;
  shift_origin _qhull_data vertices c.

(** The [else] branch of [_make_pourbaixdiagram]: more points than [dim]. *)
Definition hull_facets (_qhull_data : list point) : exn + list (list nat) :=
  do facets_pyhull <- ConvexHull _qhull_data;
  let _facets := map sort_facet facets_pyhull in
  do vert_facets_removed <- filter_exn (not_vertical _qhull_data) _facets;
  do new_qhull_data <- new_qhull_data_of _qhull_data vert_facets_removed;
  filter_exn (on_lower_hull new_qhull_data) vert_facets_removed.

Definition insufficient_msg : string :=
  "Can only do elements with at-least 3 entries for now".

Definition select_facets (_qhull_data : list point) : exn + list (list nat) :=
  if length _qhull_data <? dim then raise (StandardError insufficient_msg)
  else if length _qhull_data =? dim then ret [seq 0 dim]
  else hull_facets _qhull_data.

(** *** Diagram assembler: the last loop of [_make_pourbaixdiagram] *)

Definition assemble (_qhull_entries : list ref) (_facets : list (list nat))
  : exn + (gset nat * gset ref) :=
  for_each _facets (∅, ∅)
    (fun acc facet =>
       for_each facet acc
         (fun '(stable_vertices, stable_entries) vertex =>
            do e <- getitem _qhull_entries vertex;
            ret (stable_vertices ∪ {[vertex]}, stable_entries ∪ {[e]}))).

Record PourbaixDiagram : Type := {
  _solid_entries : list ref;
  _ion_entries : list ref;
  _unprocessed_entries : list ref;
  _elt_comp : list (string * R);
  _multielement : bool;
  pourbaix_elements : list string;
  _all_entries : list ref;
  _entry_components_dict : gmap ref (list nat);
  _qhull_entries : list ref;
  _qhull_data : list point;
  _facets : list (list nat);
  _stable_entries : gset ref;
  _vertices : gset nat
}.

(** The read-only properties. *)
Definition facets (d : PourbaixDiagram) := _facets d.
Definition qhull_data (d : PourbaixDiagram) := _qhull_data d.
Definition qhull_entries (d : PourbaixDiagram) := _qhull_entries d.
Definition stable_entries (d : PourbaixDiagram) := _stable_entries d.
Definition all_entries (d : PourbaixDiagram) := _all_entries d.
Definition vertices (d : PourbaixDiagram) := _vertices d.
Definition unprocessed_entries (d : PourbaixDiagram) := _unprocessed_entries d.

(** [_make_pourbaixdiagram], on the attributes [__init__] has set. *)
Definition _make_pourbaixdiagram (h : heap) (solid ion : list ref)
    (elt_comp : list (string * R)) (multielement : bool) (elts : list string)
  : exn + (PourbaixDiagram * heap) :=
  let unprocessed := solid ++ ion in
  do (data, qents, all, comps, h) <-
       _create_conv_hull_data h multielement unprocessed elt_comp;
  do fs <- select_facets data;
  do (stable_vertices, stable) <- assemble qents fs;
  ret ({| _solid_entries := solid; _ion_entries := ion;
          _unprocessed_entries := unprocessed;
          _elt_comp := elt_comp; _multielement := multielement;
          pourbaix_elements := elts;
          _all_entries := all; _entry_components_dict := comps;
          _qhull_entries := qents; _qhull_data := data;
          _facets := fs; _stable_entries := stable;
          _vertices := stable_vertices |}, h).

(** Every element of [entries] is an object of the store. *)
Definition valid_refs (h : heap) (entries : list ref) : bool :=
  forallb (fun entry => entry <? length h) entries.

(** [entry.phase_type == p]. *)
Definition has_phase (h : heap) (p : string) (entry : ref) : bool :=
  match attr h entry with
  | inr st => String.eqb (phase_type st) p
  | inl _ => false
  end.

Definition bad_phase (h : heap) (entry : ref) : bool :=
  negb (has_phase h "Solid" entry || has_phase h "Ion" entry).

(** [PourbaixDiagram(entries, comp_dict)]. *)
Definition __init__ (h : heap) (entries : list ref) (comp_dict : list (string * R))
  : exn + (PourbaixDiagram * heap) :=
  do (solid, ion) <- classify h entries [] [];
  match comp_dict with
  | _ :: _ =>
      do (elts, elt_comp) <- solve_composition comp_dict;
      _make_pourbaixdiagram h solid ion elt_comp true elts
  | [] =>
      do entry0 <- getitem entries 0;
      do st <- attr h entry0;
      let elts := List.filter
                    (fun symbol => negb (String.eqb symbol "H" || String.eqb symbol "O"))
                    (comp_elements (composition st)) in
      _make_pourbaixdiagram h solid ion [] false elts
  end.

End Maker.

(** Notions the statements about the store use. *)
Section MakerDerived.
Context {R : Type} `{Num R}.
Context {Comp St : Type} `{EntryContract R Comp St}.

(** The state of an entry after one pass of the loop body of
    [_create_conv_hull_data]: [entry.scale(entry.normalization_factor)]
    followed by [entry.correction += (- MU_H2O * entry.nH2O + entry.conc_term)]. *)
Definition project_state (st : St) : St :=
  let st := scale (normalization_factor st) st in
  set_correction
    (fadd (correction st) (fadd (fmul (fneg MU_H2O) (nH2O st)) (conc_term st))) st.

Definition project_object (o : object R St) : object R St :=
  with_state o (project_state (state_of o)).

(** The constituents and the state a [MultiEntry] was constructed with;
    [None] for a [PourbaixEntry]. *)
Definition entrylist_of (o : object R St) : option (list ref) :=
  match o with
  | PourbaixEntry _ => None
  | MultiEntry es _ _ => Some es
  end.

End MakerDerived.

(** ** Instances used to run the definitions *)

(** Exact arithmetic: rationals kept in lowest terms. *)
Module QNum.

Definition lit (m e : Z) : Q :=
  match e with
  | Zneg p => Qred (m # (10 ^ p))
  | _ => inject_Z (m * 10 ^ e)
  end.

Definition ltb (x y : Q) : bool := negb (Qle_bool y x).

#[export] Instance num : Num Q := {|
  flit := lit;
  fof_nat := fun n => inject_Z (Z.of_nat n);
  fadd := fun x y => Qred (x + y);
  fsub := fun x y => Qred (x - y);
  fmul := fun x y => Qred (x * y);
  fdiv := fun x y => Qred (x / y);
  fneg := fun x => Qred (- x);
  fabs := fun x => Qred (Qabs x);
  feq := Qeq_bool;
  flt := ltb;
  fle := Qle_bool
|}.

End QNum.

(** Reference linear algebra on short lists, standing for numpy's: the
    determinant by expansion along the first row and [solve] by Cramer's
    rule, with the [LinAlgError]s of [np.linalg.solve]. *)
Section ReferenceLinalg.
Context {R : Type} `{Num R}.

Definition drop_nth {A : Type} (j : nat) (l : list A) : list A :=
  take j l ++ drop (S j) l.

Definition alternate (j : nat) (x : R) : R :=
  if Nat.even j then x else fneg x.

Fixpoint laplace (n : nat) (M : list (list R)) : R :=
  match n, M with
  | S n', row :: rows =>
      fsum (imap (fun j a => alternate j (fmul a (laplace n' (map (drop_nth j) rows))))
                 row)
  | _, _ => f1
  end.

Definition det_ref (M : list (list R)) : R := laplace (length M) M.

Definition replace_column (j : nat) (b : list R) (A : list (list R)) : list (list R) :=
  zip_with (fun row bi => <[j := bi]> row) A b.

Definition solve_ref (A : list (list R)) (b : list R) : exn + list R :=
  match A with
  | [] => raise (LinAlgError
            "1-dimensional array given. Array must be at least two-dimensional")
  | _ =>
      if negb (forallb (fun row => length row =? length A) A)
      then raise (LinAlgError "Last 2 dimensions of the array must be square")
      else if negb (length b =? length A) then raise ValueError
      else
        let d := det_ref A in
        if feq d f0 then raise (LinAlgError "Singular matrix")
        else ret (map (fun j => fdiv (det_ref (replace_column j b A)) d)
                      (seq 0 (length A)))
  end.

(** The hull of four points in general position: every triple is a facet. *)
Definition simplex_hull (points : list (point R)) : exn + list (nat * nat * nat) :=
  match points with
  | [_; _; _; _] => ret [(0, 1, 2); (0, 1, 3); (0, 2, 3); (1, 2, 3)]
  | _ => raise (ExternalError "QhullError")
  end.

End ReferenceLinalg.

(** Modelled from the spec: the entry classes of
    pymatgen/analysis/pourbaix/entry.py and [Composition] are not among the
    sources.  [entry_state] is a plain instance of the attribute contract of
    the specification's data model: [scale] multiplies the coordinate fields,
    [g0] is the energy plus the correction, a [MultiEntry] is the weighted sum
    of its constituents, a composition is a table of amounts with its
    reduction factor. *)
Section ReferenceEntry.
Context {R : Type} `{Num R}.

Record composition_table : Type := {
  amounts : list (string * R);
  factor : R
}.

Record entry_state : Type := {
  e_phase_type : string;
  e_composition : composition_table;
  e_normalization_factor : R;
  e_conc_term : R;
  e_nH2O : R;
  e_npH : R;
  e_nPhi : R;
  e_uncorrected_energy : R;
  e_correction : R
}.

Definition e_scale (k : R) (e : entry_state) : entry_state :=
  {| e_phase_type := e_phase_type e;
     e_composition := e_composition e;
     e_normalization_factor := e_normalization_factor e;
     e_conc_term := e_conc_term e;
     e_nH2O := fmul (e_nH2O e) k;
     e_npH := fmul (e_npH e) k;
     e_nPhi := fmul (e_nPhi e) k;
     e_uncorrected_energy := fmul (e_uncorrected_energy e) k;
     e_correction := fmul (e_correction e) k |}.

Definition e_set_correction (v : R) (e : entry_state) : entry_state :=
  {| e_phase_type := e_phase_type e;
     e_composition := e_composition e;
     e_normalization_factor := e_normalization_factor e;
     e_conc_term := e_conc_term e;
     e_nH2O := e_nH2O e;
     e_npH := e_npH e;
     e_nPhi := e_nPhi e;
     e_uncorrected_energy := e_uncorrected_energy e;
     e_correction := v |}.

Definition weighted (field : entry_state -> R) (es : list entry_state) (ws : list R) : R :=
  dot ws (map field es).

Definition e_multi (es : list entry_state) (ws : list R) : entry_state :=
  {| e_phase_type := "Multi";
     e_composition := {| amounts := []; factor := f1 |};
     e_normalization_factor := f1;
     e_conc_term := weighted e_conc_term es ws;
     e_nH2O := weighted e_nH2O es ws;
     e_npH := weighted e_npH es ws;
     e_nPhi := weighted e_nPhi es ws;
     e_uncorrected_energy := weighted e_uncorrected_energy es ws;
     e_correction := weighted e_correction es ws |}.

Definition e_amount (c : composition_table) (symbol : string) : R :=
  match list_find (fun kv => String.eqb (fst kv) symbol = true) (amounts c) with
  | Some (_, kv) => snd kv
  | None => f0
  end.

Definition element_formula (symbol : string) : exn + composition_table :=
  ret {| amounts := [(symbol, f1)]; factor := f1 |}.

#[export] Instance reference_contract : EntryContract R composition_table entry_state := {|
  phase_type := e_phase_type;
  composition := e_composition;
  normalization_factor := e_normalization_factor;
  nH2O := e_nH2O;
  conc_term := e_conc_term;
  npH := e_npH;
  nPhi := e_nPhi;
  g0 := fun e => fadd (e_uncorrected_energy e) (e_correction e);
  correction := e_correction;
  set_correction := e_set_correction;
  scale := e_scale;
  multi_state := e_multi;
  amount := e_amount;
  reduced_factor := factor;
  comp_elements := fun c => map fst (amounts c);
  formula_is_ion := fun _ => false;
  Ion_from_formula := element_formula;
  Composition_from_formula := element_formula
|}.

End ReferenceEntry.

(** Concrete inputs, over exact arithmetic and the reference instances. *)
Module Sample.
Import QNum.

Definition entry (ph : string) (comp : list (string * Q)) (x y energy : Q)
  : object Q (@entry_state Q) :=
  PourbaixEntry
    {| e_phase_type := ph;
       e_composition := {| amounts := comp; factor := 1%Q |};
       e_normalization_factor := 1%Q;
       e_conc_term := 0%Q;
       e_nH2O := 0%Q;
       e_npH := x;
       e_nPhi := y;
       e_uncorrected_energy := energy;
       e_correction := 0%Q |}.

(** Four entries of one element: the corners of a tetrahedron. *)
Definition corners : heap Q (@entry_state Q) :=
  [entry "Solid" [("Fe", 1%Q)] 0%Q 0%Q 0%Q;
   entry "Ion" [("Fe", 1%Q)] 1%Q 0%Q 0%Q;
   entry "Solid" [("Fe", 1%Q)] 0%Q 1%Q 0%Q;
   entry "Solid" [("Fe", 1%Q)] 0%Q 0%Q 1%Q].

(** Three entries with the same coordinates. *)
Definition flat : heap Q (@entry_state Q) :=
  [entry "Solid" [("Fe", 1%Q)] 0%Q 0%Q 0%Q;
   entry "Solid" [("Fe", 1%Q)] 0%Q 0%Q 0%Q;
   entry "Ion" [("Fe", 1%Q)] 0%Q 0%Q 0%Q].

(** An entry that is neither a solid nor an ion among valid ones. *)
Definition with_gas : heap Q (@entry_state Q) :=
  [entry "Solid" [("Fe", 1%Q)] 0%Q 0%Q 0%Q;
   entry "Gas" [("Fe", 1%Q)] 1%Q 0%Q 0%Q;
   entry "Ion" [("Fe", 1%Q)] 0%Q 1%Q 0%Q].

(** Entries of a two-element system. *)
Definition alloy : heap Q (@entry_state Q) :=
  [entry "Solid" [("Fe", 1%Q)] 0%Q 0%Q 0%Q;
   entry "Solid" [("Cr", 1%Q)] 1%Q 0%Q 0%Q;
   entry "Solid" [("Fe", 1%Q); ("Cr", 1%Q)] 0%Q 1%Q 0%Q;
   entry "Solid" [("Fe", 1%Q); ("Cr", 3%Q)] 0%Q 0%Q 1%Q].

Definition half_half : list (string * Q) := [("Fe", 1 # 2); ("Cr", 1 # 2)].

(** What [np.linalg.solve] says of an array that is not two-dimensional. *)
Definition shape_message : string :=
  "1-dimensional array given. Array must be at least two-dimensional".

(** Entries with a normalization factor of 2 and one water molecule. *)
Definition scaled_entry (ph : string) (x y energy : Q) : object Q (@entry_state Q) :=
  PourbaixEntry
    {| e_phase_type := ph;
       e_composition := {| amounts := [("Fe", 1%Q)]; factor := 1%Q |};
       e_normalization_factor := 2%Q;
       e_conc_term := 0%Q;
       e_nH2O := 1%Q;
       e_npH := x;
       e_nPhi := y;
       e_uncorrected_energy := energy;
       e_correction := 0%Q |}.

(** The entries of the two-element system, each with one water molecule. *)
Definition wet_entry (comp : list (string * Q)) (x y energy : Q)
  : object Q (@entry_state Q) :=
  PourbaixEntry
    {| e_phase_type := "Solid";
       e_composition := {| amounts := comp; factor := 1%Q |};
       e_normalization_factor := 1%Q;
       e_conc_term := 0%Q;
       e_nH2O := 1%Q;
       e_npH := x;
       e_nPhi := y;
       e_uncorrected_energy := energy;
       e_correction := 0%Q |}.

Definition wet_alloy : heap Q (@entry_state Q) :=
  [wet_entry [("Fe", 1%Q)] 0%Q 0%Q 0%Q;
   wet_entry [("Cr", 1%Q)] 1%Q 0%Q 0%Q;
   wet_entry [("Fe", 1%Q); ("Cr", 1%Q)] 0%Q 1%Q 0%Q;
   wet_entry [("Fe", 1%Q); ("Cr", 3%Q)] 0%Q 0%Q 1%Q].

Definition scaled : heap Q (@entry_state Q) :=
  [scaled_entry "Solid" 1%Q 0%Q 1%Q;
   scaled_entry "Ion" 0%Q 1%Q 2%Q;
   scaled_entry "Solid" 1%Q 1%Q 3%Q].

Definition construct (h : heap Q (@entry_state Q)) (entries : list ref)
    (comp_dict : list (string * Q)) :=
  __init__ solve_ref det_ref simplex_hull h entries comp_dict.

Definition synthesize (h : heap Q (@entry_state Q)) (entries : list ref)
    (_elt_comp : list (string * Q)) :=
  _process_multielement_entries solve_ref h entries _elt_comp.

End Sample.

(** * Properties *)

(** ** The exception monad and the loops *)

Lemma bind_inr {A B : Type} (m : exn + A) (k : A -> exn + B) (b : B) :
  bind m k = inr b -> exists a, m = inr a /\ k a = inr b.
Proof.
  destruct m as [e | a]; simpl; intros Hk; [discriminate | eauto].
Qed.

Ltac bind_inv H :=
  let x := fresh "x" in
  let Hx := fresh "Hx" in
  apply bind_inr in H; destruct H as (x & Hx & H).

Lemma getitem_inr {A : Type} (l : list A) (i : nat) (a : A) :
  getitem l i = inr a <-> l !! i = Some a.
Proof.
  unfold getitem. destruct (l !! i); split; congruence.
Qed.

Lemma for_each_app {A S : Type} (l1 l2 : list A) (acc : S) body :
  for_each (l1 ++ l2) acc body = do acc' <- for_each l1 acc body; for_each l2 acc' body.
Proof.
  revert acc. induction l1 as [| x l1 IH]; intros acc; simpl; [reflexivity |].
  destruct (body acc x) as [e | acc']; simpl; [reflexivity | apply IH].
Qed.

(** An invariant of the accumulator is kept by a loop that returns. *)
Lemma for_each_invariant {A S : Type} (I : S -> Prop) (l : list A) body :
  (forall acc x acc', x ∈ l -> I acc -> body acc x = inr acc' -> I acc') ->
  forall acc out, I acc -> for_each l acc body = inr out -> I out.
Proof.
  induction l as [| x l IH]; intros Hstep acc out Hacc Hrun; simpl in Hrun.
  - congruence.
  - bind_inv Hrun. eapply IH; [| | exact Hrun].
    + intros ? ? ? Hin. apply Hstep. now right.
    + eapply Hstep; [left | exact Hacc | exact Hx].
Qed.

Lemma map_exn_inr {A B : Type} (f : A -> exn + B) (l : list A) (out : list B) :
  map_exn f l = inr out -> Forall2 (fun x y => f x = inr y) l out.
Proof.
  revert out. induction l as [| x l IH]; intros out Hrun; simpl in Hrun.
  - injection Hrun as <-. constructor.
  - bind_inv Hrun. bind_inv Hrun. injection Hrun as <-.
    constructor; [assumption | now apply IH].
Qed.

(** What a filtering loop returns: it extends the accumulator with
    elements of the list that pass the test, in order. *)
Lemma filter_loop_inr {A : Type} (keep : A -> exn + bool) (l acc out : list A) :
  for_each l acc (fun kept x => do b <- keep x; ret (if b then kept ++ [x] else kept))
    = inr out ->
  exists new, out = acc ++ new /\ sublist new l /\ Forall (fun x => keep x = inr true) new.
Proof.
  revert acc out. induction l as [| x l IH]; intros acc out Hrun; simpl in Hrun.
  - injection Hrun as <-. exists []. rewrite app_nil_r. repeat split; constructor.
  - bind_inv Hrun. bind_inv Hx. injection Hx as <-.
    destruct (IH _ _ Hrun) as (new & -> & Hsub & Hall).
    destruct x1.
    + exists (x :: new). rewrite <- app_assoc. simpl.
      repeat split; [now constructor | now constructor].
    + exists new. repeat split; [now constructor | assumption].
Qed.

Lemma Forall_of_sublist {A : Type} (P : A -> Prop) (l1 l2 : list A) :
  sublist l1 l2 -> Forall P l2 -> Forall P l1.
Proof.
  induction 1 as [| x l1 l2 _ IH | x l1 l2 _ IH]; intros Hall.
  - constructor.
  - apply Forall_cons in Hall as [Hx Hall]. constructor; auto.
  - apply Forall_cons in Hall as [_ Hall]. auto.
Qed.

Lemma Forall2_of_pairs {A B : Type} (P : A -> B -> Prop) (l : list (A * B)) :
  Forall (fun x => P (fst x) (snd x)) l -> Forall2 P (map fst l) (map snd l).
Proof.
  induction 1; simpl; constructor; auto.
Qed.

Lemma StronglySorted_map {A B : Type} (rel : B -> B -> Prop) (f : A -> B) (l : list A) :
  StronglySorted (fun a b => rel (f a) (f b)) l <-> StronglySorted rel (map f l).
Proof.
  induction l as [| x l IH]; simpl; split; intros Hs; try constructor;
    apply StronglySorted_inv in Hs as [Hl Hx].
  - now apply IH.
  - clear -Hx. induction Hx; simpl; constructor; auto.
  - now apply IH.
  - clear -Hx. induction l as [| y l IHl]; simpl in *; constructor;
      apply Forall_cons in Hx as [Hy Hx]; auto.
Qed.

Lemma filter_exn_inr {A : Type} (keep : A -> exn + bool) (l out : list A) :
  filter_exn keep l = inr out ->
  sublist out l /\ Forall (fun x => keep x = inr true) out.
Proof.
  intros Hrun. apply filter_loop_inr in Hrun as (new & -> & Hsub & Hall). now split.
Qed.

Section MakerProps.
Context {R : Type} `{Num R}.
Context {Comp St : Type} `{EntryContract R Comp St}.
Variable solve : list (list R) -> list R -> exn + list R.
Variable det : list (list R) -> R.
Variable ConvexHull : list (point R) -> exn + list (nat * nat * nat).

#[local] Abbreviation heap := (heap R St).

(** ** Entry classifier *)

Lemma attr_valid (h : heap) (entry : ref) :
  entry < length h -> exists st, attr h entry = inr st.
Proof.
  intros Hlt. unfold attr.
  destruct (h !! entry) as [o |] eqn:Hlookup; [eauto |].
  apply lookup_ge_None in Hlookup. lia.
Qed.

Lemma classify_spec (h : heap) (entries solid ion : list ref) :
  valid_refs h entries = true ->
  classify h entries solid ion =
    if existsb (bad_phase h) entries
    then inl (StandardError phase_type_msg)
    else inr (solid ++ List.filter (has_phase h "Solid") entries,
              ion ++ List.filter (has_phase h "Ion") entries).
Proof.
  revert solid ion. induction entries as [| entry rest IH]; intros solid ion Hvalid.
  - simpl. now rewrite !app_nil_r.
  - simpl in Hvalid. apply andb_prop in Hvalid as [Hentry Hrest].
    apply Nat.ltb_lt in Hentry. destruct (attr_valid h entry Hentry) as [st Hst].
    simpl. unfold bad_phase, has_phase. rewrite Hst. simpl.
    destruct (String.eqb (phase_type st) "Solid") eqn:Hsolid.
    + apply String.eqb_eq in Hsolid. rewrite Hsolid. simpl.
      rewrite IH by assumption. fold (bad_phase h).
      destruct (existsb _ rest); [reflexivity |].
      unfold has_phase. now rewrite <- app_assoc.
    + destruct (String.eqb (phase_type st) "Ion") eqn:Hion; simpl.
      * rewrite IH by assumption. fold (bad_phase h).
        destruct (existsb _ rest); [reflexivity |].
        unfold has_phase. now rewrite <- app_assoc.
      * reflexivity.
Qed.

(** What a successful construction went through. *)
Lemma init_inr (h h' : heap) (entries : list ref) (comp_dict : list (string * R))
    (d : PourbaixDiagram) :
  __init__ solve det ConvexHull h entries comp_dict = inr (d, h') ->
  exists solid ion elt_comp multielement elts,
    classify h entries [] [] = inr (solid, ion) /\
    _make_pourbaixdiagram solve det ConvexHull h solid ion elt_comp multielement elts = inr (d, h').
Proof.
  unfold __init__. intros Hrun. bind_inv Hrun. destruct x as [solid ion].
  destruct comp_dict as [| kv comp_dict].
  - bind_inv Hrun. bind_inv Hrun. eauto 10.
  - bind_inv Hrun. destruct x as [elts elt_comp]. eauto 10.
Qed.

Lemma make_inr (h h' : heap) (solid ion : list ref) (elt_comp : list (string * R))
    (multielement : bool) (elts : list string) (d : PourbaixDiagram) :
  _make_pourbaixdiagram solve det ConvexHull h solid ion elt_comp multielement elts = inr (d, h') ->
  exists comps,
    _create_conv_hull_data solve h multielement (solid ++ ion) elt_comp
      = inr (qhull_data d, qhull_entries d, all_entries d, comps, h') /\
    select_facets det ConvexHull (qhull_data d) = inr (facets d) /\
    assemble (qhull_entries d) (facets d) = inr (vertices d, stable_entries d) /\
    _solid_entries d = solid /\ _ion_entries d = ion /\
    unprocessed_entries d = solid ++ ion.
Proof.
  unfold _make_pourbaixdiagram. intros Hrun.
  bind_inv Hrun. destruct x as [[[[data qents] all] comps] h1].
  bind_inv Hrun. bind_inv Hrun. destruct x0 as [sv stable].
  injection Hrun as <- <-. simpl. eauto 10.
Qed.

(** C8. An entry whose phase type is neither "Solid" nor "Ion" makes the
    construction fail at classification with the phase-type error, whatever
    the composition target; otherwise the solid and the ion lists are the
    entries of each phase type in input order, and the unprocessed working
    set is the solids followed by the ions. *)
Theorem classification_rejects_or_partitions
    (h : heap) (entries : list ref) (comp_dict : list (string * R)) :
  valid_refs h entries = true ->
  (existsb (bad_phase h) entries = true ->
     __init__ solve det ConvexHull h entries comp_dict = inl (StandardError phase_type_msg)) /\
  (existsb (bad_phase h) entries = false ->
     classify h entries [] []
       = inr (List.filter (has_phase h "Solid") entries,
              List.filter (has_phase h "Ion") entries) /\
     forall d h', __init__ solve det ConvexHull h entries comp_dict = inr (d, h') ->
       _solid_entries d = List.filter (has_phase h "Solid") entries /\
       _ion_entries d = List.filter (has_phase h "Ion") entries /\
       unprocessed_entries d = _solid_entries d ++ _ion_entries d).
Proof.
  intros Hvalid. pose proof (classify_spec h entries [] [] Hvalid) as Hspec.
  split; intros Hbad; rewrite Hbad in Hspec; simpl in Hspec.
  - unfold __init__. now rewrite Hspec.
  - split; [exact Hspec |]. intros d h' Hrun.
    apply init_inr in Hrun as (solid & ion & ec & m & elts & Hclass & Hmake).
    rewrite Hspec in Hclass. injection Hclass as <- <-.
    apply make_inr in Hmake as (comps & _ & _ & _ & -> & -> & ->).
    auto.
Qed.

(** C10. With an empty entry sequence and an empty composition target the
    classifier returns two empty lists and the construction fails with an
    index error at [entries[0]]. *)
Theorem empty_entries_index_error (h : heap) :
  classify h [] [] [] = inr ([], []) /\
  __init__ solve det ConvexHull h [] [] = inl IndexError.
Proof.
  split; reflexivity.
Qed.

(** ** Multi-entry synthesizer *)

Lemma synth_step_skip (entries : list ref) (elt_comp : list (string * R))
    (s : locals) (combo : list nat) :
  try_combination solve (l_heap s) entries elt_comp combo = Skip ->
  synth_step solve entries elt_comp s combo = inr (skipped s combo).
Proof.
  unfold synth_step. now intros ->.
Qed.

Lemma synth_step_entry_list (entries : list ref) (elt_comp : list (string * R))
    (s s' : locals) (combo : list nat) :
  synth_step solve entries elt_comp s combo = inr s' -> l_entry_list s' = Some combo.
Proof.
  unfold synth_step.
  destruct (try_combination solve _ _ _ _); simpl; intros Hstep;
    [| | discriminate]; injection Hstep as <-; reflexivity.
Qed.

(** After the loop [entry_list] is the last combination. *)
Lemma loop_entry_list (entries : list ref) (elt_comp : list (string * R))
    (combos : list (list nat)) (s s' : locals) :
  for_each combos s (synth_step solve entries elt_comp) = inr s' ->
  l_entry_list s' = match last combos with
                    | Some combo => Some combo
                    | None => l_entry_list s
                    end.
Proof.
  revert s. induction combos as [| combo rest IH]; intros s Hrun; simpl in Hrun.
  - injection Hrun as <-. reflexivity.
  - bind_inv Hrun. apply synth_step_entry_list in Hx.
    specialize (IH _ Hrun). rewrite last_cons.
    destruct (last rest); [exact IH | congruence].
Qed.

(** [super_entry], once bound, is the last element of [processed_entries]. *)
Lemma loop_super_entry (entries : list ref) (elt_comp : list (string * R))
    (combos : list (list nat)) (s s' : locals) :
  l_super_entry s = last (l_processed_entries s) ->
  for_each combos s (synth_step solve entries elt_comp) = inr s' ->
  l_super_entry s' = last (l_processed_entries s').
Proof.
  intros Hs Hrun.
  eapply (for_each_invariant
            (fun s : locals => l_super_entry s = last (l_processed_entries s)));
    [| exact Hs | exact Hrun].
  intros acc combo acc' _ Hacc. unfold synth_step.
  destruct (try_combination solve _ _ _ _); simpl; intros Hstep;
    [| | discriminate]; injection Hstep as <-; simpl.
  - exact Hacc.
  - now rewrite last_snoc.
Qed.

(** C9. When every combination is skipped, or there is none, the
    synthesizer raises an unbound-local error at the statement after the
    loop: for [entry_list] when the loop body never ran, for [super_entry]
    otherwise. *)
Theorem no_feasible_combination_unbound_local
    (h : heap) (entries : list ref) (elt_comp : list (string * R)) :
  forallb (fun combo => is_skip (try_combination solve h entries elt_comp combo))
          (combinations (length elt_comp) (seq 0 (length entries))) = true ->
  _process_multielement_entries solve h entries elt_comp =
    inl (UnboundLocalError
           match combinations (length elt_comp) (seq 0 (length entries)) with
           | [] => "entry_list"
           | _ :: _ => "super_entry"
           end).
Proof.
  unfold _process_multielement_entries.
  generalize (combinations (length elt_comp) (seq 0 (length entries))) as combos.
  intros combos Hskip.
  assert (Hloop : forall s, l_heap s = h ->
            exists s', for_each combos s (synth_step solve entries elt_comp) = inr s' /\
                       l_heap s' = h /\ l_super_entry s' = l_super_entry s).
  { induction combos as [| combo rest IH]; intros s Hs; simpl.
    - eauto.
    - simpl in Hskip. apply andb_prop in Hskip as [Hcombo Hrest].
      rewrite synth_step_skip.
      + simpl. destruct (IH Hrest (skipped s combo) Hs) as (s' & Hrun & Hh & Hse).
        eauto.
      + rewrite Hs. destruct (try_combination solve h entries elt_comp combo);
          [reflexivity | discriminate | discriminate]. }
  destruct (Hloop (init_locals h) eq_refl) as (s' & Hrun & _ & Hse).
  pose proof (loop_entry_list _ _ _ _ _ Hrun) as Hel.
  rewrite Hrun. simpl. rewrite Hel, Hse. simpl.
  destruct combos as [| combo rest]; [reflexivity |].
  destruct (last (combo :: rest)) eqn:Hlast; [reflexivity |].
  now apply last_None in Hlast.
Qed.

(** Objects already in the store are not touched by an allocation. *)
Lemma attr_app (h ext : heap) (entry : ref) :
  entry < length h -> attr (h ++ ext) entry = attr h entry.
Proof.
  intros Hlt. unfold attr. now rewrite lookup_app_l.
Qed.

Lemma map_exn_ext {A B : Type} (f g : A -> exn + B) (l : list A) :
  Forall (fun x => f x = g x) l -> map_exn f l = map_exn g l.
Proof.
  induction 1 as [| x l Hx _ IH]; simpl; [reflexivity |]. now rewrite Hx, IH.
Qed.

Lemma valid_refs_Forall (h : heap) (entries : list ref) :
  valid_refs h entries = true <-> Forall (fun entry => entry < length h) entries.
Proof.
  unfold valid_refs. rewrite forallb_forall, Forall_forall.
  split; intros Hall x Hx.
  - apply Nat.ltb_lt, Hall. now apply list_elem_of_In.
  - apply Nat.ltb_lt, Hall. now apply list_elem_of_In.
Qed.

Lemma multi_entries_valid (h : heap) (entries multi_entries : list ref) (combo : list nat) :
  valid_refs h entries = true ->
  map_exn (getitem entries) combo = inr multi_entries ->
  Forall (fun entry => entry < length h) multi_entries.
Proof.
  intros Hvalid Hmap. apply valid_refs_Forall in Hvalid.
  apply map_exn_inr in Hmap. induction Hmap as [| j e combo' es Hj _ IH]; constructor.
  - apply getitem_inr in Hj. rewrite Forall_forall in Hvalid.
    apply Hvalid. eapply list_elem_of_lookup_2, Hj.
  - exact IH.
Qed.

Lemma combination_system_app (h ext : heap) (entries : list ref)
    (elt_comp : list (string * R)) (combo : list nat) :
  valid_refs h entries = true ->
  combination_system (h ++ ext) entries elt_comp combo
    = combination_system h entries elt_comp combo.
Proof.
  intros Hvalid. unfold combination_system.
  destruct (map_exn (getitem entries) combo) as [e | multi] eqn:Hmulti; [reflexivity |].
  simpl. pose proof (multi_entries_valid _ _ _ _ Hvalid Hmulti) as Hall.
  destruct multi as [| entry0 others]; [reflexivity |].
  apply Forall_cons in Hall as [Hentry0 Hothers].
  rewrite attr_app by assumption.
  assert (HA : system_A (h ++ ext) elt_comp others = system_A h elt_comp others).
  { unfold system_A. erewrite map_exn_ext; [reflexivity |].
    eapply Forall_impl; [exact Hothers |]. intros entry Hentry. simpl.
    now rewrite attr_app. }
  now rewrite HA.
Qed.

Lemma try_combination_app (h ext : heap) (entries : list ref)
    (elt_comp : list (string * R)) (combo : list nat) :
  valid_refs h entries = true ->
  try_combination solve (h ++ ext) entries elt_comp combo
    = try_combination solve h entries elt_comp combo.
Proof.
  intros Hvalid. unfold try_combination.
  rewrite combination_system_app by assumption.
  destruct (combination_system h entries elt_comp combo)
    as [e | [[multi A] b]] eqn:Hsys; [reflexivity |].
  assert (Hattr : map_exn (attr (h ++ ext)) multi = map_exn (attr h) multi).
  { apply map_exn_ext. unfold combination_system in Hsys. bind_inv Hsys.
    pose proof (multi_entries_valid _ _ _ _ Hvalid Hx) as Hall.
    destruct x as [| entry0 others]; [discriminate |].
    bind_inv Hsys. bind_inv Hsys. bind_inv Hsys. injection Hsys as <- _ _.
    eapply Forall_impl; [exact Hall |]. intros entry Hentry. now apply attr_app. }
  now rewrite Hattr.
Qed.

(** The loop when no combination raises: one new object per feasible
    combination, allocated at the end of the store in order. *)
Lemma loop_builds (h : heap) (entries : list ref) (elt_comp : list (string * R))
    (combos : list (list nat)) :
  valid_refs h entries = true ->
  forallb (fun combo => negb (is_fail (try_combination solve h entries elt_comp combo)))
          combos = true ->
  forall ext s, l_heap s = h ++ ext ->
  exists s',
    for_each combos s (synth_step solve entries elt_comp) = inr s' /\
    l_heap s' = l_heap s ++ built_objects solve h entries elt_comp combos /\
    l_processed_entries s' =
      l_processed_entries s
        ++ seq (length (l_heap s)) (length (built_objects solve h entries elt_comp combos)).
Proof.
  intros Hvalid. induction combos as [| combo rest IH]; intros Hok ext s Hs.
  - exists s. simpl. now rewrite !app_nil_r.
  - simpl in Hok. apply andb_prop in Hok as [Hcombo Hrest].
    simpl. unfold synth_step, built_objects, built_object. simpl.
    rewrite Hs, try_combination_app by assumption.
    destruct (try_combination solve h entries elt_comp combo)
      as [| multi weights sts | e] eqn:Htry; [| | discriminate].
    + simpl. destruct (IH Hrest ext (skipped s combo) Hs) as (s' & Hrun & Hh & Hp).
      exists s'. rewrite <- Hs. auto.
    + simpl.
      set (o := MultiEntry multi weights (multi_state sts weights)).
      set (s1 := {| l_heap := (h ++ ext) ++ [o];
                    l_processed_entries := l_processed_entries s ++ [length (h ++ ext)];
                    l_components_dict := <[length (h ++ ext) := combo]> (l_components_dict s);
                    l_super_entry := Some (length (h ++ ext));
                    l_entry_list := Some combo |}).
      destruct (IH Hrest (ext ++ [o]) s1) as (s' & Hrun & Hh & Hp).
      { simpl. now rewrite app_assoc. }
      exists s'. split; [exact Hrun |]. rewrite Hh, Hp. simpl.
      rewrite <- !app_assoc, length_app. simpl.
      replace (length (h ++ ext ++ [o])) with (S (length h + length ext))
        by (rewrite !length_app; simpl; lia).
      split; reflexivity.
Qed.

Lemma built_objects_nonempty (h : heap) (entries : list ref)
    (elt_comp : list (string * R)) (combos : list (list nat)) :
  existsb (fun combo => is_build (try_combination solve h entries elt_comp combo))
          combos = true ->
  built_objects solve h entries elt_comp combos <> [].
Proof.
  induction combos as [| combo rest IH]; simpl; [discriminate |].
  unfold built_objects, built_object. simpl.
  destruct (try_combination solve h entries elt_comp combo); simpl; auto; discriminate.
Qed.

(** C4. When no combination raises and at least one is feasible, the
    synthesizer returns the list of the new [MultiEntry] objects, one per
    feasible combination and all different, followed by the last of them
    once more: the last two elements of the output are the same object. *)
Theorem duplicate_of_last_multientry
    (h : heap) (entries : list ref) (elt_comp : list (string * R)) :
  valid_refs h entries = true ->
  forallb (fun combo => negb (is_fail (try_combination solve h entries elt_comp combo)))
          (combinations (length elt_comp) (seq 0 (length entries))) = true ->
  existsb (fun combo => is_build (try_combination solve h entries elt_comp combo))
          (combinations (length elt_comp) (seq 0 (length entries))) = true ->
  exists built se comps,
    _process_multielement_entries solve h entries elt_comp
      = inr (built ++ [se], comps,
             h ++ built_objects solve h entries elt_comp
                    (combinations (length elt_comp) (seq 0 (length entries)))) /\
    built = seq (length h)
                (length (built_objects solve h entries elt_comp
                           (combinations (length elt_comp) (seq 0 (length entries))))) /\
    last built = Some se /\
    NoDup built.
Proof.
  unfold _process_multielement_entries.
  generalize (combinations (length elt_comp) (seq 0 (length entries))) as combos.
  intros combos Hvalid Hok Hsome.
  destruct (loop_builds h entries elt_comp combos Hvalid Hok [] (init_locals h))
    as (s' & Hrun & Hh & Hp); [simpl; now rewrite app_nil_r |].
  simpl in Hh, Hp.
  pose proof (loop_entry_list _ _ _ _ _ Hrun) as Hel.
  pose proof (loop_super_entry _ _ _ (init_locals h) _ eq_refl Hrun) as Hse.
  pose proof (built_objects_nonempty _ _ _ _ Hsome) as Hne.
  rewrite Hrun. simpl.
  destruct (last combos) as [combo |] eqn:Hlast.
  2:{ apply last_None in Hlast. subst combos. discriminate. }
  rewrite Hel. rewrite Hse, Hp.
  match goal with
  | |- context [match ?t with Some _ => _ | None => raise _ end] =>
      destruct t as [se |] eqn:Hlastb
  end.
  2:{ apply last_None in Hlastb. destruct (built_objects solve h entries elt_comp combos);
        [congruence | discriminate]. }
  exists (seq (length h) (length (built_objects solve h entries elt_comp combos))), se.
  eexists. rewrite Hh. repeat split; [assumption | apply NoDup_seq].
Qed.

Lemma try_combination_build_weights (h : heap) (entries : list ref)
    (elt_comp : list (string * R)) (combo : list nat)
    (multi : list ref) (weights : list R) (sts : list St) :
  try_combination solve h entries elt_comp combo = Build multi weights sts ->
  exists ws, weights = f1 :: ws /\ Forall (fun w => flt f0 w = true) ws.
Proof.
  unfold try_combination.
  destruct (combination_system h entries elt_comp combo) as [e | [[m A] b]];
    [discriminate |].
  destruct (solve A b) as [e | ws].
  - destruct e; try discriminate. destruct (is_singular_message msg); discriminate.
  - destruct (forallb (fun w => flt f0 w) ws) eqn:Hpos; simpl; [| discriminate].
    destruct (map_exn (attr h) m); [discriminate |].
    intros Hbuild. injection Hbuild as _ <- _. exists ws. split; [reflexivity |].
    rewrite forallb_forall in Hpos. apply Forall_forall. intros w Hw.
    apply Hpos. now apply list_elem_of_In.
Qed.

Lemma positive_weights_app (h ext : heap) (entry : ref) :
  positive_weights h entry -> positive_weights (h ++ ext) entry.
Proof.
  intros (o & ws & Hlookup & Hweights & Hpos). exists o, ws.
  split; [| now split]. now apply lookup_app_l_Some.
Qed.

Lemma loop_positive_weights (entries : list ref) (elt_comp : list (string * R))
    (combos : list (list nat)) (s s' : locals) :
  Forall (positive_weights (l_heap s)) (l_processed_entries s) ->
  for_each combos s (synth_step solve entries elt_comp) = inr s' ->
  Forall (positive_weights (l_heap s')) (l_processed_entries s').
Proof.
  intros Hs Hrun.
  eapply (for_each_invariant
            (fun s : locals => Forall (positive_weights (l_heap s)) (l_processed_entries s)));
    [| exact Hs | exact Hrun].
  intros acc combo acc' _ Hacc. unfold synth_step.
  destruct (try_combination _ _ _ _ _) as [| multi weights sts | e] eqn:Htry;
    simpl; intros Hstep; [| | discriminate]; injection Hstep as <-; simpl.
  - exact Hacc.
  - apply try_combination_build_weights in Htry as (ws & -> & Hpos).
    apply Forall_app. split.
    + eapply Forall_impl; [exact Hacc |]. intros entry. apply positive_weights_app.
    + constructor; [| constructor]. eexists _, ws.
      split; [now apply list_lookup_middle |]. now split.
Qed.

(** C5. Every element of the synthesizer's output is a [MultiEntry] whose
    weight vector is 1.0 followed by solved weights that are all above 0;
    where 0.0 < 1.0 holds, every weight of the vector is above 0. *)
Theorem output_weights_positive
    (h h' : heap) (entries out : list ref) (elt_comp : list (string * R))
    (comps : gmap ref (list nat)) :
  _process_multielement_entries solve h entries elt_comp = inr (out, comps, h') ->
  Forall (positive_weights h') out /\
  (flt f0 f1 = true ->
   Forall (fun entry => exists o ws, h' !! entry = Some o /\ weights_of o = Some ws /\
                                    Forall (fun w => flt f0 w = true) ws) out).
Proof.
  intros Hrun.
  assert (Hall : Forall (positive_weights h') out).
  { unfold _process_multielement_entries in Hrun. bind_inv Hrun.
    pose proof (loop_positive_weights _ _ _ (init_locals h) x (Forall_nil_2 _) Hx) as Hinv.
    pose proof (loop_super_entry _ _ _ (init_locals h) x eq_refl Hx) as Hse.
    destruct (l_entry_list x); [| discriminate].
    destruct (l_super_entry x) as [se |]; [| discriminate].
    injection Hrun as <- _ <-.
    apply Forall_app. split; [exact Hinv |]. constructor; [| constructor].
    symmetry in Hse. apply last_Some in Hse as [l' Hl']. rewrite Hl' in Hinv.
    apply Forall_app in Hinv as [_ Hlast]. now apply Forall_inv in Hlast. }
  split; [exact Hall |]. intros H01.
  eapply Forall_impl; [exact Hall |].
  intros entry (o & ws & Hlookup & Hweights & Hpos).
  exists o, (f1 :: ws). repeat split; [assumption | assumption |].
  now constructor.
Qed.

(** C7 as the code has it. When [np.linalg.solve] raises a [LinAlgError]
    for a combination, a message containing "Singular matrix" makes the
    iteration end by [continue]; any other message makes the iteration, and
    so the synthesizer, raise a [StandardError] with the fixed text
    "Unknown Error message!" in place of the original exception. *)
Theorem linalg_failure_skipped_or_replaced
    (h : heap) (entries : list ref) (elt_comp : list (string * R))
    (pre post : list (list nat)) (combo : list nat) (s : locals)
    (multi : list ref) (A : list (list R)) (b : list R) (msg : string) :
  combinations (length elt_comp) (seq 0 (length entries)) = pre ++ combo :: post ->
  for_each pre (init_locals h) (synth_step solve entries elt_comp) = inr s ->
  combination_system (l_heap s) entries elt_comp combo = inr (multi, A, b) ->
  solve A b = inl (LinAlgError msg) ->
  (is_singular_message msg = true ->
     synth_step solve entries elt_comp s combo = inr (skipped s combo)) /\
  (is_singular_message msg = false ->
     synth_step solve entries elt_comp s combo
       = inl (StandardError "Unknown Error message!") /\
     _process_multielement_entries solve h entries elt_comp
       = inl (StandardError "Unknown Error message!")).
Proof.
  intros Hcombos Hpre Hsys Hsolve.
  assert (Hstep : synth_step solve entries elt_comp s combo =
                  if is_singular_message msg then inr (skipped s combo)
                  else inl (StandardError "Unknown Error message!")).
  { unfold synth_step, try_combination. rewrite Hsys, Hsolve.
    now destruct (is_singular_message msg). }
  split; intros Hmsg; rewrite Hmsg in Hstep; [exact Hstep |].
  split; [exact Hstep |].
  unfold _process_multielement_entries. rewrite Hcombos, for_each_app.
  rewrite Hpre. simpl. now rewrite Hstep.
Qed.

(** ** Diagram assembler *)

#[local] Set Warnings "-clear-no-such-hyp".

Lemma assemble_facet (qents : list ref) (facet : list nat)
    (sv0 sv : gset nat) (st0 st : gset ref) :
  for_each facet (sv0, st0)
    (fun '(stable_vertices, stable_entries) vertex =>
       do e <- getitem qents vertex;
       ret (stable_vertices ∪ {[vertex]}, stable_entries ∪ {[e]})) = inr (sv, st) ->
  (forall v, v ∈ sv <-> v ∈ sv0 \/ v ∈ facet) /\
  (forall e, e ∈ st <-> e ∈ st0 \/ exists v, v ∈ facet /\ qents !! v = Some e).
Proof.
  revert sv0 st0. induction facet as [| vertex rest IH]; intros sv0 st0 Hrun; simpl in Hrun.
  - injection Hrun as <- <-. split; [set_solver |].
    intros e. split; [auto |]. intros [He | (v & Hv & _)]; [assumption | set_solver].
  - bind_inv Hrun. bind_inv Hx. injection Hx as <-. apply getitem_inr in Hx0.
    destruct (IH _ _ Hrun) as [Hsv Hst]. split.
    + intros v. rewrite Hsv. set_solver.
    + intros e. rewrite Hst. split.
      * intros [He | (v & Hv & Hlookup)].
        -- apply elem_of_union in He as [He | He]; [now left |].
           apply elem_of_singleton in He as ->. right. exists vertex. split; [left | assumption].
        -- right. exists v. split; [now right | assumption].
      * intros [He | (v & Hv & Hlookup)]; [set_solver |].
        apply elem_of_cons in Hv as [-> | Hv].
        -- left. rewrite Hx0 in Hlookup. injection Hlookup as ->. set_solver.
        -- right. eauto.
Qed.

Lemma assemble_loop (qents : list ref) (fs : list (list nat))
    (sv0 sv : gset nat) (st0 st : gset ref) :
  for_each fs (sv0, st0)
    (fun acc facet =>
       for_each facet acc
         (fun '(stable_vertices, stable_entries) vertex =>
            do e <- getitem qents vertex;
            ret (stable_vertices ∪ {[vertex]}, stable_entries ∪ {[e]}))) = inr (sv, st) ->
  (forall v, v ∈ sv <-> v ∈ sv0 \/ exists facet, facet ∈ fs /\ v ∈ facet) /\
  (forall e, e ∈ st <->
      e ∈ st0 \/ exists facet v, facet ∈ fs /\ v ∈ facet /\ qents !! v = Some e).
Proof.
  revert sv0 st0. induction fs as [| facet rest IH]; intros sv0 st0 Hrun; simpl in Hrun.
  - injection Hrun as <- <-. split.
    + intros v. split; [auto |]. intros [Hv | (f & Hf & _)]; [assumption | set_solver].
    + intros e. split; [auto |]. intros [He | (f & v & Hf & _)]; [assumption | set_solver].
  - bind_inv Hrun. destruct x as [sv1 st1].
    apply assemble_facet in Hx as [Hsv1 Hst1].
    destruct (IH _ _ Hrun) as [Hsv Hst]. split.
    + intros v. rewrite Hsv, Hsv1. split.
      * intros [[Hv | Hv] | (f & Hf & Hv)]; [now left | right | right].
        -- exists facet. split; [left | assumption].
        -- exists f. split; [now right | assumption].
      * intros [Hv | (f & Hf & Hv)]; [now left; left |].
        apply elem_of_cons in Hf as [-> | Hf]; [left; now right | right; eauto].
    + intros e. rewrite Hst, Hst1. split.
      * intros [[He | (v & Hv & Hl)] | (f & v & Hf & Hv & Hl)]; [now left | right | right].
        -- exists facet, v. split; [left | now split].
        -- exists f, v. split; [now right | now split].
      * intros [He | (f & v & Hf & Hv & Hl)]; [now left; left |].
        apply elem_of_cons in Hf as [-> | Hf]; [left; right; eauto | right; eauto].
Qed.

(** C1. The stable entries of a constructed diagram are exactly the
    entries [qhull_entries[v]] for the vertices [v] of its facets (and the
    stable vertices exactly those vertices), whichever branch produced the
    facets. *)
Theorem stable_entries_are_facet_entries
    (h h' : heap) (entries : list ref) (comp_dict : list (string * R))
    (d : PourbaixDiagram) :
  __init__ solve det ConvexHull h entries comp_dict = inr (d, h') ->
  (forall e, e ∈ stable_entries d <->
     exists facet v, facet ∈ facets d /\ v ∈ facet /\ qhull_entries d !! v = Some e) /\
  (forall v, v ∈ vertices d <-> exists facet, facet ∈ facets d /\ v ∈ facet).
Proof.
  intros Hrun.
  apply init_inr in Hrun as (solid & ion & ec & m & elts & _ & Hmake).
  apply make_inr in Hmake as (comps & _ & _ & Hassemble & _).
  apply assemble_loop in Hassemble as [Hsv Hst]. split.
  - intros e. rewrite Hst. set_solver.
  - intros v. rewrite Hsv. set_solver.
Qed.

(** ** Lower-envelope selector *)

Lemma select_facets_hull (data : list (point R)) (fs : list (list nat)) :
  select_facets det ConvexHull data = inr fs ->
  3 < length data ->
  hull_facets det ConvexHull data = inr fs.
Proof.
  unfold select_facets, dim. intros Hrun Hlen.
  destruct (length data <? 3) eqn:Hlt; [discriminate |].
  destruct (length data =? 3) eqn:Heq; [| exact Hrun].
  apply Nat.eqb_eq in Heq. lia.
Qed.

Lemma hull_facets_inr (data : list (point R)) (fs : list (list nat)) :
  hull_facets det ConvexHull data = inr fs ->
  exists facets_pyhull vert_facets_removed new_qhull_data,
    ConvexHull data = inr facets_pyhull /\
    filter_exn (not_vertical det data) (map sort_facet facets_pyhull)
      = inr vert_facets_removed /\
    new_qhull_data_of data vert_facets_removed = inr new_qhull_data /\
    filter_exn (on_lower_hull new_qhull_data) vert_facets_removed = inr fs.
Proof.
  unfold hull_facets. intros Hrun.
  bind_inv Hrun. bind_inv Hrun. bind_inv Hrun. eauto 10.
Qed.

(** C2. In a diagram built from more than 3 hull points, every retained
    facet has an oriented normal, computed on the data shifted to the
    centre of the non-vertical facets, whose third component is at most 0. *)
Theorem retained_facets_face_down
    (h h' : heap) (entries : list ref) (comp_dict : list (string * R))
    (d : PourbaixDiagram) :
  __init__ solve det ConvexHull h entries comp_dict = inr (d, h') ->
  3 < length (qhull_data d) ->
  exists facets_pyhull vert_facets_removed new_qhull_data,
    ConvexHull (qhull_data d) = inr facets_pyhull /\
    filter_exn (not_vertical det (qhull_data d)) (map sort_facet facets_pyhull)
      = inr vert_facets_removed /\
    new_qhull_data_of (qhull_data d) vert_facets_removed = inr new_qhull_data /\
    Forall (fun facet =>
              exists n, oriented_normal new_qhull_data facet = inr n /\
                        fle (pz n) f0 = true)
           (facets d).
Proof.
  intros Hrun Hlen.
  apply init_inr in Hrun as (solid & ion & ec & m & elts & _ & Hmake).
  apply make_inr in Hmake as (comps & _ & Hselect & _).
  apply select_facets_hull in Hselect; [| exact Hlen].
  apply hull_facets_inr in Hselect as (fp & vfr & nd & Hhull & Hvert & Hnd & Hlow).
  exists fp, vfr, nd. repeat split; try assumption.
  apply filter_exn_inr in Hlow as [_ Hall].
  eapply Forall_impl; [exact Hall |]. intros facet Hkeep. simpl in Hkeep.
  unfold on_lower_hull in Hkeep. bind_inv Hkeep. injection Hkeep as Hle. eauto.
Qed.

(** C3 as the code has it. In a diagram built from more than 3 hull points
    every retained facet passed the test [abs(det(facetmatrix)) > 1e-8];
    with exactly 3 hull points the single facet [[0, 1, 2]] is exposed
    without the test. *)
Theorem retained_facets_not_vertical
    (h h' : heap) (entries : list ref) (comp_dict : list (string * R))
    (d : PourbaixDiagram) :
  __init__ solve det ConvexHull h entries comp_dict = inr (d, h') ->
  (3 < length (qhull_data d) ->
   Forall (fun facet =>
             exists m, facetmatrix (qhull_data d) facet = inr m /\
                       flt VERTICAL_EPS (fabs (det m)) = true)
          (facets d)) /\
  (length (qhull_data d) = 3 -> facets d = [[0; 1; 2]]).
Proof.
  intros Hrun.
  apply init_inr in Hrun as (solid & ion & ec & m & elts & _ & Hmake).
  apply make_inr in Hmake as (comps & _ & Hselect & _).
  split; intros Hlen.
  - apply select_facets_hull in Hselect; [| exact Hlen].
    apply hull_facets_inr in Hselect as (fp & vfr & nd & _ & Hvert & _ & Hlow).
    apply filter_exn_inr in Hlow as [Hsub _].
    apply filter_exn_inr in Hvert as [_ Hall].
    eapply Forall_impl; [eapply Forall_of_sublist; eassumption |].
    intros facet Hkeep. simpl in Hkeep.
    unfold not_vertical in Hkeep. bind_inv Hkeep. injection Hkeep as Hgt. eauto.
  - unfold select_facets, dim in Hselect. rewrite Hlen in Hselect. simpl in Hselect.
    now injection Hselect as <-.
Qed.

(** ** Hull-space projector *)

Lemma insert_by_key_perm {A : Type} (key : A -> R) (x : A) (l : list A) :
  insert_by_key key x l ≡ₚ x :: l.
Proof.
  induction l as [| y rest IH]; simpl; [reflexivity |].
  destruct (flt (key y) (key x)); [| reflexivity].
  rewrite IH. apply Permutation_swap.
Qed.

Lemma sort_by_key_perm {A : Type} (key : A -> R) (l : list A) :
  sort_by_key key l ≡ₚ l.
Proof.
  induction l as [| x rest IH]; simpl; [reflexivity |].
  rewrite insert_by_key_perm. now rewrite IH.
Qed.

Lemma insert_by_key_sorted {A : Type} (key : A -> R) (x : A) (l : list A) :
  order_laws R ->
  StronglySorted (fun a b => fle (key a) (key b) = true) l ->
  StronglySorted (fun a b => fle (key a) (key b) = true) (insert_by_key key x l).
Proof.
  intros (Hlt_le & Hnlt_ge & Htrans) Hsorted.
  induction Hsorted as [| y rest Hrest IH Hy]; simpl.
  - repeat constructor.
  - destruct (flt (key y) (key x)) eqn:Hcmp.
    + constructor; [exact IH |].
      rewrite insert_by_key_perm. constructor; [now apply Hlt_le | exact Hy].
    + apply Hnlt_ge in Hcmp. constructor; [now constructor |].
      constructor; [exact Hcmp |].
      eapply Forall_impl; [exact Hy |]. intros z Hz. simpl in Hz. eauto.
Qed.

Lemma sort_by_key_sorted {A : Type} (key : A -> R) (l : list A) :
  order_laws R ->
  StronglySorted (fun a b => fle (key a) (key b) = true) (sort_by_key key l).
Proof.
  intros Hlaws. induction l as [| x rest IH]; simpl; [constructor |].
  now apply insert_by_key_sorted.
Qed.

Lemma process_conv_hull_data_inr (h : heap) (entries_to_process : list ref)
    (data : list (point R)) (qents : list ref) :
  _process_conv_hull_data h entries_to_process = inr (data, qents) ->
  Forall2 (fun p entry => exists st, attr h entry = inr st /\ p = row_of st) data qents /\
  qents ≡ₚ entries_to_process /\
  (order_laws R -> StronglySorted (fun p q => fle (pz p) (pz q) = true) data).
Proof.
  unfold _process_conv_hull_data. intros Hrun. bind_inv Hrun.
  rename x into data0. apply map_exn_inr in Hx.
  set (key := fun x : point R * ref => pz (fst x)) in *.
  set (P := fun x : point R * ref =>
              exists st, attr h (snd x) = inr st /\ fst x = row_of st).
  assert (Hzip : Forall P (zip data0 entries_to_process)).
  { clear Hrun. induction Hx as [| entry p es ps Hp _ IH]; simpl; [constructor |].
    constructor; [| exact IH].
    bind_inv Hp. injection Hp as <-. now exists x. }
  assert (Hlen : length entries_to_process = length data0) by (eapply Forall2_length, Hx).
  pose proof (sort_by_key_perm key (zip data0 entries_to_process)) as Hperm.
  rewrite <- Hperm in Hzip.
  assert (Hsnd : (sort_by_key key (zip data0 entries_to_process)).*2 ≡ₚ entries_to_process).
  { rewrite Hperm. rewrite snd_zip by lia. reflexivity. }
  pose proof (sort_by_key_sorted key (zip data0 entries_to_process)) as Hsorted.
  destruct (sort_by_key key (zip data0 entries_to_process)) as [| pe temp] eqn:Htemp;
    [discriminate |].
  injection Hrun as <- <-. split; [| split].
  - exact (Forall2_of_pairs
             (fun p entry => exists st, attr h entry = inr st /\ p = row_of st)
             (pe :: temp) Hzip).
  - exact Hsnd.
  - intros Hlaws. specialize (Hsorted Hlaws).
    exact (proj1 (StronglySorted_map (fun p q : point R => fle (pz p) (pz q) = true)
                    fst (pe :: temp)) Hsorted).
Qed.













End MakerProps.

(** ** The theorems on concrete inputs *)

Module Witness.
Import QNum Sample.

Lemma stable_entries_are_facet_entries_witness :
  exists d h',
    construct corners [0; 1; 2; 3] [] = inr (d, h') /\
    (forall e, e ∈ stable_entries d <->
       exists facet v, facet ∈ facets d /\ v ∈ facet /\ qhull_entries d !! v = Some e) /\
    (forall v, v ∈ vertices d <-> exists facet, facet ∈ facets d /\ v ∈ facet).
Proof.
  eexists _, _. split; [vm_compute; reflexivity |].
  eapply (stable_entries_are_facet_entries solve_ref det_ref simplex_hull
            corners _ [0; 1; 2; 3] []).
  vm_compute. reflexivity.
Defined.

Lemma retained_facets_face_down_witness :
  exists d h',
    construct corners [0; 1; 2; 3] [] = inr (d, h') /\
    3 < length (qhull_data d) /\
    exists facets_pyhull vert_facets_removed new_qhull_data,
      simplex_hull (qhull_data d) = inr facets_pyhull /\
      filter_exn (not_vertical det_ref (qhull_data d)) (map sort_facet facets_pyhull)
        = inr vert_facets_removed /\
      new_qhull_data_of (qhull_data d) vert_facets_removed = inr new_qhull_data /\
      Forall (fun facet =>
                exists n, oriented_normal new_qhull_data facet = inr n /\
                          fle (pz n) f0 = true)
             (facets d).
Proof.
  eexists _, _. split; [vm_compute; reflexivity |].
  split; [vm_compute; lia |].
  eapply (retained_facets_face_down solve_ref det_ref simplex_hull
            corners _ [0; 1; 2; 3] []).
  - vm_compute. reflexivity.
  - vm_compute. lia.
Defined.

Lemma retained_facets_not_vertical_witness :
  (exists d h',
     construct corners [0; 1; 2; 3] [] = inr (d, h') /\
     3 < length (qhull_data d) /\
     Forall (fun facet =>
               exists m, facetmatrix (qhull_data d) facet = inr m /\
                         flt VERTICAL_EPS (fabs (det_ref m)) = true)
            (facets d)) /\
  (exists d h',
     construct flat [0; 1; 2] [] = inr (d, h') /\
     length (qhull_data d) = 3 /\
     facets d = [[0; 1; 2]]).
Proof.
  split.
  - edestruct retained_facets_not_vertical with (solve := @solve_ref Q _) (det := @det_ref Q _)
      (ConvexHull := @simplex_hull Q) (h := corners) (entries := [0; 1; 2; 3])
      (comp_dict := @nil (string * Q)) as [Hhull _];
      [vm_compute; reflexivity |].
    eexists _, _. split; [vm_compute; reflexivity |].
    split; [vm_compute; lia |]. apply Hhull. vm_compute. lia.
  - edestruct retained_facets_not_vertical with (solve := @solve_ref Q _) (det := @det_ref Q _)
      (ConvexHull := @simplex_hull Q) (h := flat) (entries := [0; 1; 2])
      (comp_dict := @nil (string * Q)) as [_ Hthree];
      [vm_compute; reflexivity |].
    eexists _, _. split; [vm_compute; reflexivity |].
    split; [reflexivity |]. apply Hthree. reflexivity.
Defined.

(** C3 does not hold of the exact-dimension shortcut: for three entries
    with equal coordinates the diagram exposes the facet [[0, 1, 2]], whose
    homogeneous matrix has two zero columns and determinant 0 (under any
    determinant algorithm), so [abs(det) <= 1e-8]. *)
Lemma three_point_facet_is_vertical :
  exists d h',
    construct flat [0; 1; 2] [] = inr (d, h') /\
    [0; 1; 2] ∈ facets d /\
    exists m, facetmatrix (qhull_data d) [0; 1; 2] = inr m /\
              fle (fabs (det_ref m)) VERTICAL_EPS = true.
Proof.
  eexists _, _. split; [vm_compute; reflexivity |].
  split; [left |].
  eexists. split; vm_compute; reflexivity.
Qed.

Lemma duplicate_of_last_multientry_witness :
  valid_refs alloy [0; 1; 2; 3] = true /\
  forallb (fun combo =>
             negb (is_fail (try_combination solve_ref alloy [0; 1; 2; 3] half_half combo)))
          (combinations 2 (seq 0 4)) = true /\
  existsb (fun combo =>
             is_build (try_combination solve_ref alloy [0; 1; 2; 3] half_half combo))
          (combinations 2 (seq 0 4)) = true /\
  exists built se comps,
    synthesize alloy [0; 1; 2; 3] half_half
      = inr (built ++ [se], comps,
             alloy ++ built_objects solve_ref alloy [0; 1; 2; 3] half_half
                        (combinations 2 (seq 0 4))) /\
    built = seq 4 (length (built_objects solve_ref alloy [0; 1; 2; 3] half_half
                             (combinations 2 (seq 0 4)))) /\
    last built = Some se /\
    NoDup built.
Proof.
  split; [reflexivity |]. split; [vm_compute; reflexivity |].
  split; [vm_compute; reflexivity |].
  apply (duplicate_of_last_multientry solve_ref alloy [0; 1; 2; 3] half_half);
    vm_compute; reflexivity.
Defined.

Lemma output_weights_positive_witness :
  exists out comps h',
    synthesize alloy [0; 1; 2; 3] half_half = inr (out, comps, h') /\
    Forall (positive_weights h') out /\
    flt (f0 : Q) f1 = true /\
    Forall (fun entry => exists o ws, h' !! entry = Some o /\ weights_of o = Some ws /\
                                     Forall (fun w => flt (f0 : Q) w = true) ws) out.
Proof.
  edestruct output_weights_positive with (solve := @solve_ref Q _) (h := alloy)
      (entries := [0; 1; 2; 3]) (elt_comp := half_half)
    as [Hsolved Hall]; [vm_compute; reflexivity |].
  eexists _, _, _. split; [vm_compute; reflexivity |].
  split; [exact Hsolved |]. split; [reflexivity |]. apply Hall. reflexivity.
Defined.




Lemma linalg_failure_skipped_or_replaced_witness :
  combinations 1 (seq 0 2) = [] ++ [0] :: [[1]] /\
  for_each [] (init_locals alloy) (synth_step solve_ref [0; 1] [("Fe", 1%Q)])
    = inr (init_locals alloy) /\
  combination_system alloy [0; 1] [("Fe", 1%Q)] [0] = inr ([0], [], []) /\
  solve_ref (R := Q) [] [] = inl (LinAlgError shape_message) /\
  is_singular_message shape_message = false /\
  synth_step solve_ref [0; 1] [("Fe", 1%Q)] (init_locals alloy) [0]
    = inl (StandardError "Unknown Error message!") /\
  synthesize alloy [0; 1] [("Fe", 1%Q)]
    = inl (StandardError "Unknown Error message!").
Proof.
  split; [reflexivity |]. split; [reflexivity |].
  split; [vm_compute; reflexivity |]. split; [reflexivity |].
  split; [reflexivity |].
  apply (linalg_failure_skipped_or_replaced solve_ref alloy [0; 1] [("Fe", 1%Q)]
           [] [[1]] [0] (init_locals alloy) [0] [] [] shape_message);
    reflexivity.
Defined.

(** C7 does not hold as stated: with a target of a single element the
    system of every combination is empty, [np.linalg.solve] rejects it with a
    [LinAlgError] about its shape, and the caller receives a
    [StandardError] with another message instead of that exception. *)
Lemma non_singular_failure_not_reraised :
  combination_system alloy [0; 1] [("Fe", 1%Q)] [0] = inr ([0], [], []) /\
  solve_ref (R := Q) [] [] = inl (LinAlgError shape_message) /\
  is_singular_message shape_message = false /\
  synthesize alloy [0; 1] [("Fe", 1%Q)] = inl (StandardError "Unknown Error message!") /\
  synthesize alloy [0; 1] [("Fe", 1%Q)] <> inl (LinAlgError shape_message) /\
  construct alloy [0; 1] [("Fe", 1%Q)] = inl (StandardError "Unknown Error message!").
Proof.
  repeat split; try (vm_compute; reflexivity).
  vm_compute. discriminate.
Qed.

Lemma classification_rejects_or_partitions_witness :
  (valid_refs with_gas [0; 1; 2] = true /\
   existsb (bad_phase with_gas) [0; 1; 2] = true /\
   construct with_gas [0; 1; 2] [] = inl (StandardError phase_type_msg)) /\
  (valid_refs corners [0; 1; 2; 3] = true /\
   existsb (bad_phase corners) [0; 1; 2; 3] = false /\
   classify corners [0; 1; 2; 3] [] [] = inr ([0; 2; 3], [1]) /\
   exists d h',
     construct corners [0; 1; 2; 3] [] = inr (d, h') /\
     _solid_entries d = [0; 2; 3] /\
     _ion_entries d = [1] /\
     unprocessed_entries d = _solid_entries d ++ _ion_entries d).
Proof.
  split.
  - split; [reflexivity |]. split; [reflexivity |].
    apply (classification_rejects_or_partitions solve_ref det_ref simplex_hull
             with_gas [0; 1; 2] []); reflexivity.
  - split; [reflexivity |]. split; [reflexivity |].
    destruct (classification_rejects_or_partitions solve_ref det_ref simplex_hull
                corners [0; 1; 2; 3] [] eq_refl) as [_ Hvalid].
    destruct (Hvalid eq_refl) as [Hclass Hfields].
    split; [exact Hclass |].
    eexists _, _. split; [vm_compute; reflexivity |].
    eapply Hfields. vm_compute. reflexivity.
Defined.

Lemma no_feasible_combination_unbound_local_witness :
  forallb (fun combo =>
             is_skip (try_combination solve_ref alloy [0; 1; 2; 3]
                        [("Fe", 2%Q); ("Cr", 2%Q)] combo))
          (combinations 2 (seq 0 4)) = true /\
  synthesize alloy [0; 1; 2; 3] [("Fe", 2%Q); ("Cr", 2%Q)]
    = inl (UnboundLocalError "super_entry") /\
  solve_composition solve_ref [("Fe", 1%Q); ("Cr", 1%Q)]
    = inr (["Fe"; "Cr"], [("Fe", 2%Q); ("Cr", 2%Q)]) /\
  construct alloy [0; 1; 2; 3] [("Fe", 1%Q); ("Cr", 1%Q)]
    = inl (UnboundLocalError "super_entry").
Proof.
  split; [vm_compute; reflexivity |].
  split; [| split; vm_compute; reflexivity].
  apply (no_feasible_combination_unbound_local solve_ref alloy [0; 1; 2; 3]
           [("Fe", 2%Q); ("Cr", 2%Q)]).
  vm_compute. reflexivity.
Defined.

End Witness.

(** * Further properties of the construction *)

Section MakerMore.
Context {R : Type} `{Num R}.
Context {Comp St : Type} `{EntryContract R Comp St}.
Variable solve : list (list R) -> list R -> exn + list R.
Variable det : list (list R) -> R.
Variable ConvexHull : list (point R) -> exn + list (nat * nat * nat).

#[local] Abbreviation heap := (heap R St).
#[local] Set Warnings "-clear-no-such-hyp".

(** ** The projection loop on the store *)

Lemma project_entry_alter (h : heap) (entry : ref) :
  entry < length h ->
  project_entry h entry = inr (alter project_object entry h).
Proof.
  intros Hlt. unfold project_entry, attr, store.
  destruct (h !! entry) as [o |] eqn:Hlookup.
  2:{ apply lookup_ge_None in Hlookup. lia. }
  simpl. unfold ref in *. rewrite list_lookup_insert_eq by assumption. simpl.
  f_equal. rewrite list_insert_insert_eq.
  apply list_eq. intros i. destruct (decide (i = entry)) as [-> | Hne].
  - rewrite list_lookup_insert_eq by assumption.
    rewrite list_lookup_alter_eq, Hlookup. simpl.
    unfold project_object, project_state. now destruct o.
  - rewrite list_lookup_insert_ne by congruence.
    now rewrite list_lookup_alter_ne by congruence.
Qed.

(** The loop [for entry in self._all_entries] never fails on objects of the
    store, keeps the size of the store and applies the loop body to an
    object once per occurrence of its reference in the list. *)
Lemma project_loop (l : list ref) (h : heap) :
  Forall (fun entry => entry < length h) l ->
  exists h',
    for_each l h project_entry = inr h' /\
    length h' = length h /\
    forall entry,
      h' !! entry = Nat.iter (count_occ Nat.eq_dec l entry) project_object <$> h !! entry.
Proof.
  revert h. induction l as [| x l IH]; intros h Hvalid.
  - exists h. simpl. repeat split. intros entry. now destruct (h !! entry).
  - apply Forall_cons in Hvalid as [Hx Hl]. simpl.
    rewrite project_entry_alter by assumption. simpl.
    destruct (IH (alter project_object x h)) as (h' & Hrun & Hlen & Hlookup).
    { rewrite length_alter. exact Hl. }
    exists h'. split; [exact Hrun |]. split; [now rewrite Hlen, length_alter |].
    intros entry. rewrite Hlookup. unfold ref in *.
    destruct (Nat.eq_dec x entry) as [-> | Hne].
    + rewrite list_lookup_alter_eq. destruct (h !! entry); simpl; [| reflexivity].
      f_equal. apply Nat.iter_swap.
    + now rewrite list_lookup_alter_ne by congruence.
Qed.

(** ** What a construction went through, by mode *)

Lemma classify_inr (h : heap) (entries solid ion solid' ion' : list ref) :
  classify h entries solid ion = inr (solid', ion') ->
  solid' ++ ion' ≡ₚ solid ++ ion ++ entries /\
  Forall (fun entry => entry < length h) entries.
Proof.
  revert solid ion. induction entries as [| entry rest IH]; intros solid ion Hrun;
    simpl in Hrun.
  - injection Hrun as <- <-. rewrite app_nil_r. split; [reflexivity | constructor].
  - bind_inv Hrun.
    assert (Hentry : entry < length h).
    { unfold attr in Hx. destruct (h !! entry) eqn:Hlookup; [| discriminate].
      eapply lookup_lt_Some, Hlookup. }
    destruct (String.eqb (phase_type x) "Solid").
    + apply IH in Hrun as [Hperm Hvalid]. split; [| now constructor].
      rewrite Hperm. solve_Permutation.
    + destruct (String.eqb (phase_type x) "Ion"); [| discriminate].
      apply IH in Hrun as [Hperm Hvalid]. split; [| now constructor].
      rewrite Hperm. solve_Permutation.
Qed.

Lemma init_single_inr (h h' : heap) (entries : list ref) (d : PourbaixDiagram) :
  __init__ solve det ConvexHull h entries [] = inr (d, h') ->
  exists solid ion elts,
    classify h entries [] [] = inr (solid, ion) /\
    _make_pourbaixdiagram solve det ConvexHull h solid ion [] false elts = inr (d, h').
Proof.
  unfold __init__. intros Hrun. bind_inv Hrun. destruct x as [solid ion].
  bind_inv Hrun. bind_inv Hrun. eauto 10.
Qed.

Lemma init_multi_inr (h h' : heap) (entries : list ref) (kv : string * R)
    (comp_dict : list (string * R)) (d : PourbaixDiagram) :
  __init__ solve det ConvexHull h entries (kv :: comp_dict) = inr (d, h') ->
  exists solid ion elts elt_comp,
    classify h entries [] [] = inr (solid, ion) /\
    solve_composition solve (kv :: comp_dict) = inr (elts, elt_comp) /\
    _make_pourbaixdiagram solve det ConvexHull h solid ion elt_comp true elts
      = inr (d, h').
Proof.
  unfold __init__. intros Hrun. bind_inv Hrun. destruct x as [solid ion].
  bind_inv Hrun. destruct x as [elts elt_comp]. eauto 10.
Qed.

Lemma create_inr (h h' : heap) (multielement : bool) (unprocessed : list ref)
    (elt_comp : list (string * R)) (data : list (point R)) (qents all : list ref)
    (comps : gmap ref (list nat)) :
  _create_conv_hull_data solve h multielement unprocessed elt_comp
    = inr (data, qents, all, comps, h') ->
  exists h0,
    (if multielement
     then _process_multielement_entries solve h unprocessed elt_comp
     else ret (unprocessed, ∅, h)) = inr (all, comps, h0) /\
    for_each all h0 project_entry = inr h' /\
    _process_conv_hull_data h' all = inr (data, qents).
Proof.
  unfold _create_conv_hull_data. intros Hrun.
  bind_inv Hrun. destruct x as [[all0 comps0] h0].
  bind_inv Hrun. bind_inv Hrun. destruct x0 as [data0 qents0].
  injection Hrun as <- <- <- <- <-. eauto.
Qed.

(** What a construction went through, down to the loops. *)
Lemma construction_inr (h h' : heap) (entries : list ref)
    (comp_dict : list (string * R)) (d : PourbaixDiagram) :
  __init__ solve det ConvexHull h entries comp_dict = inr (d, h') ->
  exists comps h0,
    unprocessed_entries d ≡ₚ entries /\
    Forall (fun entry => entry < length h) entries /\
    (if _multielement d
     then _process_multielement_entries solve h (unprocessed_entries d) (_elt_comp d)
     else ret (unprocessed_entries d, ∅, h)) = inr (all_entries d, comps, h0) /\
    for_each (all_entries d) h0 project_entry = inr h' /\
    _process_conv_hull_data h' (all_entries d) = inr (qhull_data d, qhull_entries d) /\
    select_facets det ConvexHull (qhull_data d) = inr (facets d) /\
    assemble (qhull_entries d) (facets d) = inr (vertices d, stable_entries d) /\
    _multielement d = match comp_dict with [] => false | _ :: _ => true end.
Proof.
  intros Hrun.
  assert (Hmake : exists solid ion elt_comp elts,
            classify h entries [] [] = inr (solid, ion) /\
            _make_pourbaixdiagram solve det ConvexHull h solid ion elt_comp
              match comp_dict with [] => false | _ :: _ => true end elts = inr (d, h')).
  { destruct comp_dict as [| kv comp_dict].
    - apply init_single_inr in Hrun as (solid & ion & elts & Hc & Hm). eauto 10.
    - apply init_multi_inr in Hrun as (solid & ion & elts & ec & Hc & _ & Hm). eauto 10. }
  destruct Hmake as (solid & ion & ec & elts & Hclass & Hmake).
  apply classify_inr in Hclass as [Hperm Hvalid]. simpl in Hperm.
  unfold _make_pourbaixdiagram in Hmake.
  bind_inv Hmake. destruct x as [[[[data qents] all] comps] h1].
  bind_inv Hmake. bind_inv Hmake. destruct x0 as [sv stable].
  injection Hmake as <- <-. simpl.
  apply create_inr in Hx as (h0 & Hsynth & Hproject & Hprocess).
  exists comps, h0. repeat split; assumption.
Qed.

Lemma construction_single_inr (h h' : heap) (entries : list ref) (d : PourbaixDiagram) :
  __init__ solve det ConvexHull h entries [] = inr (d, h') ->
  unprocessed_entries d ≡ₚ entries /\
  Forall (fun entry => entry < length h) entries /\
  all_entries d = unprocessed_entries d /\
  for_each (all_entries d) h project_entry = inr h' /\
  _process_conv_hull_data h' (all_entries d) = inr (qhull_data d, qhull_entries d).
Proof.
  intros Hrun.
  apply construction_inr in Hrun
    as (comps & h0 & Hperm & Hvalid & Hsynth & Hproject & Hprocess & _ & _ & Hmode).
  rewrite Hmode in Hsynth. injection Hsynth as Hall _ <-.
  repeat split; auto.
Qed.

(** X1. The classifier only reorders: the unprocessed working set is a
    permutation of the input entries.  In single-element mode the processed
    entries are that working set and the entries of the hull points are a
    permutation of the input, one hull point per entry. *)
Theorem entries_reordered_not_lost
    (h h' : heap) (entries : list ref) (comp_dict : list (string * R))
    (d : PourbaixDiagram) :
  __init__ solve det ConvexHull h entries comp_dict = inr (d, h') ->
  unprocessed_entries d ≡ₚ entries /\
  (comp_dict = [] ->
   all_entries d = unprocessed_entries d /\
   qhull_entries d ≡ₚ entries /\
   length (qhull_data d) = length entries).
Proof.
  intros Hrun. split.
  - now apply construction_inr in Hrun as (comps & h0 & Hperm & _).
  - intros ->. apply construction_single_inr in Hrun
      as (Hperm & _ & Hall & _ & Hprocess).
    apply process_conv_hull_data_inr in Hprocess as (Haligned & Hq & _).
    split; [exact Hall |].
    assert (Hqe : qhull_entries d ≡ₚ entries) by now rewrite Hq, Hall.
    split; [exact Hqe |].
    rewrite (Forall2_length _ _ _ Haligned). now rewrite Hqe.
Qed.

(** X2. In single-element mode the construction keeps the size of the
    store and applies the scaling and the correction to an object once per
    occurrence of its reference in the input sequence: an entry listed
    twice is scaled twice, objects that are not listed are left as they
    were. *)
Theorem single_mode_projects_each_occurrence
    (h h' : heap) (entries : list ref) (d : PourbaixDiagram) :
  __init__ solve det ConvexHull h entries [] = inr (d, h') ->
  length h' = length h /\
  forall entry,
    h' !! entry
      = Nat.iter (count_occ Nat.eq_dec entries entry) project_object <$> h !! entry.
Proof.
  intros Hrun. apply construction_single_inr in Hrun
    as (Hperm & Hvalid & Hall & Hproject & _).
  rewrite Hall in Hproject.
  destruct (project_loop (unprocessed_entries d) h) as (h1 & Hrun1 & Hlen & Hlookup).
  { rewrite Hperm. exact Hvalid. }
  rewrite Hrun1 in Hproject. injection Hproject as <-.
  split; [exact Hlen |]. intros entry. rewrite Hlookup.
  now rewrite (proj1 (Permutation_count_occ Nat.eq_dec _ _) Hperm).
Qed.

(** ** Single-element mode: when the construction succeeds *)

Lemma map_exn_total {A B : Type} (f : A -> exn + B) (l : list A) :
  Forall (fun x => exists y, f x = inr y) l ->
  exists out, map_exn f l = inr out /\ length out = length l.
Proof.
  induction 1 as [| x l [y Hy] _ (out & Hout & Hlen)]; simpl.
  - now exists [].
  - exists (y :: out). rewrite Hy, Hout. simpl. auto.
Qed.

Lemma process_conv_hull_data_total (h : heap) (l : list ref) :
  Forall (fun entry => entry < length h) l ->
  l <> [] ->
  exists data qents,
    _process_conv_hull_data h l = inr (data, qents) /\
    length data = length l /\ length qents = length l.
Proof.
  intros Hvalid Hne. unfold _process_conv_hull_data.
  destruct (map_exn_total (fun entry => do st <- attr h entry; ret (row_of st)) l)
    as (data0 & Hdata0 & Hlen0).
  { eapply Forall_impl; [exact Hvalid |]. intros entry Hentry. simpl in Hentry.
    destruct (attr_valid h entry Hentry) as [st Hst]. exists (row_of st).
    now rewrite Hst. }
  rewrite Hdata0. simpl.
  pose proof (sort_by_key_perm (fun x : point R * ref => pz (fst x)) (zip data0 l))
    as Hperm.
  apply Permutation_length in Hperm. rewrite length_zip, Hlen0, Nat.min_id in Hperm.
  destruct (sort_by_key _ (zip data0 l)) as [| pe temp] eqn:Htemp.
  - destruct l; [congruence | discriminate].
  - eexists _, _. split; [reflexivity |]. rewrite !length_map. auto.
Qed.

Lemma single_pipeline_total (h : heap) (unprocessed : list ref)
    (elt_comp : list (string * R)) :
  Forall (fun entry => entry < length h) unprocessed ->
  unprocessed <> [] ->
  exists data qents h',
    _create_conv_hull_data solve h false unprocessed elt_comp
      = inr (data, qents, unprocessed, ∅, h') /\
    length data = length unprocessed /\
    length qents = length unprocessed /\
    qents ≡ₚ unprocessed.
Proof.
  intros Hvalid Hne. unfold _create_conv_hull_data. simpl.
  destruct (project_loop unprocessed h Hvalid) as (h' & Hrun & Hlen & _).
  rewrite Hrun. simpl.
  destruct (process_conv_hull_data_total h' unprocessed) as (data & qents & Hp & Hd & Hq);
    [now rewrite Hlen | exact Hne |].
  rewrite Hp. simpl. exists data, qents, h'. repeat split; try assumption.
  now apply process_conv_hull_data_inr in Hp as (_ & Hperm & _).
Qed.

(** The first steps of a construction in single-element mode from a
    non-empty sequence of solid and ion entries. *)
Lemma single_mode_steps (h : heap) (entries : list ref) :
  valid_refs h entries = true ->
  existsb (bad_phase h) entries = false ->
  entries <> [] ->
  exists solid ion elts data qents h',
    __init__ solve det ConvexHull h entries []
      = _make_pourbaixdiagram solve det ConvexHull h solid ion [] false elts /\
    _create_conv_hull_data solve h false (solid ++ ion) []
      = inr (data, qents, solid ++ ion, ∅, h') /\
    length data = length entries /\
    length qents = length entries /\
    qents ≡ₚ entries.
Proof.
  intros Hvalid Hbad Hne.
  pose proof (classify_spec h entries [] [] Hvalid) as Hclass.
  rewrite Hbad in Hclass. simpl in Hclass.
  destruct (classify_inr _ _ _ _ _ _ Hclass) as [Hperm Hall]. simpl in Hperm.
  destruct entries as [| entry0 rest]; [congruence |].
  destruct (attr_valid h entry0) as [st0 Hst0]; [now apply Forall_inv in Hall |].
  destruct (single_pipeline_total h
              (List.filter (has_phase h "Solid") (entry0 :: rest)
                 ++ List.filter (has_phase h "Ion") (entry0 :: rest)) [])
    as (data & qents & h' & Hcreate & Hd & Hq & Hqperm).
  { rewrite Hperm. exact Hall. }
  { intros Hnil. apply (f_equal length) in Hnil.
    rewrite (Permutation_length Hperm) in Hnil. discriminate. }
  eexists _, _, _, data, qents, h'. split; [| split; [exact Hcreate |]].
  - unfold __init__. rewrite Hclass. simpl. unfold getitem. simpl.
    rewrite Hst0. simpl. reflexivity.
  - rewrite Hd, Hq, Hqperm, Hperm. auto using Permutation_length.
Qed.

(** X3. In single-element mode one or two solid or ion entries are not
    enough: the construction raises the error of the dimensionality check
    ("Can only do elements with at-least 3 entries for now"). *)
Theorem fewer_than_three_entries_rejected (h : heap) (entries : list ref) :
  valid_refs h entries = true ->
  existsb (bad_phase h) entries = false ->
  entries <> [] ->
  length entries < 3 ->
  __init__ solve det ConvexHull h entries [] = inl (StandardError insufficient_msg).
Proof.
  intros Hvalid Hbad Hne Hlen.
  destruct (single_mode_steps h entries Hvalid Hbad Hne)
    as (solid & ion & elts & data & qents & h' & -> & Hcreate & Hd & _).
  unfold _make_pourbaixdiagram. rewrite Hcreate. simpl.
  unfold select_facets, dim. rewrite Hd.
  destruct (length entries <? 3) eqn:Hlt; [reflexivity |].
  apply Nat.ltb_ge in Hlt. lia.
Qed.

(** X4. In single-element mode exactly three solid or ion entries always
    give a diagram, without a call of the hull primitive: its only facet is
    [[0, 1, 2]], its vertices are 0, 1 and 2, and its stable entries are
    the three input entries. *)
Theorem three_entries_all_stable (h : heap) (entries : list ref) :
  valid_refs h entries = true ->
  existsb (bad_phase h) entries = false ->
  length entries = 3 ->
  exists d h',
    __init__ solve det ConvexHull h entries [] = inr (d, h') /\
    facets d = [[0; 1; 2]] /\
    (forall v, v ∈ vertices d <-> v < 3) /\
    (forall e, e ∈ stable_entries d <-> e ∈ entries).
Proof.
  intros Hvalid Hbad Hlen.
  destruct (single_mode_steps h entries Hvalid Hbad)
    as (solid & ion & elts & data & qents & h' & -> & Hcreate & Hd & Hq & Hperm).
  { intros ->. discriminate. }
  unfold _make_pourbaixdiagram. rewrite Hcreate. simpl.
  unfold select_facets, dim. rewrite Hd, Hlen. simpl.
  rewrite Hlen in Hq.
  destruct qents as [| a [| b [| c [| ? ?]]]]; try discriminate.
  simpl. eexists _, _. split; [reflexivity |]. simpl.
  split; [reflexivity |]. split.
  - intros v. rewrite !elem_of_union, !elem_of_singleton. split.
    + intros [[[Hv | ->] | ->] | ->]; [set_solver | lia | lia | lia].
    + intros Hv. destruct v as [| [| [| v]]]; [| | | lia]; auto.
  - intros e. rewrite <- Hperm.
    rewrite !elem_of_union, !elem_of_singleton, !elem_of_cons. split.
    + intros [[[He | ->] | ->] | ->]; [set_solver | auto ..].
    + intros [-> | [-> | [-> | He]]]; [auto .. |]. now apply elem_of_nil in He.
Qed.

(** ** Facets *)

Lemma assemble_facet_valid (qents : list ref) (facet : list nat)
    (acc acc' : gset nat * gset ref) :
  for_each facet acc
    (fun '(stable_vertices, stable_entries) vertex =>
       do e <- getitem qents vertex;
       ret (stable_vertices ∪ {[vertex]}, stable_entries ∪ {[e]})) = inr acc' ->
  Forall (fun vertex => vertex < length qents) facet.
Proof.
  revert acc. induction facet as [| vertex rest IH]; intros [sv st] Hrun; simpl in Hrun.
  - constructor.
  - bind_inv Hrun. bind_inv Hx. apply getitem_inr in Hx0. injection Hx as <-.
    constructor; [eapply lookup_lt_Some, Hx0 | eapply IH, Hrun].
Qed.

Lemma assemble_valid (qents : list ref) (fs : list (list nat))
    (out : gset nat * gset ref) :
  assemble qents fs = inr out ->
  Forall (Forall (fun vertex => vertex < length qents)) fs.
Proof.
  unfold assemble. generalize (∅ : gset nat, ∅ : gset ref). revert out.
  induction fs as [| facet rest IH]; intros out acc Hrun; simpl in Hrun.
  - constructor.
  - bind_inv Hrun. constructor; [eapply assemble_facet_valid, Hx | eapply IH, Hrun].
Qed.

Lemma sort_facet_shape (f : nat * nat * nat) :
  length (sort_facet f) = 3 /\ StronglySorted le (sort_facet f).
Proof.
  destruct f as [[a b] c]. unfold sort_facet. split.
  - now rewrite (Permutation_length (merge_sort_Permutation le [a; b; c])).
  - apply (StronglySorted_merge_sort le).
Qed.

Lemma select_facets_shape (data : list (point R)) (fs : list (list nat)) :
  select_facets det ConvexHull data = inr fs ->
  Forall (fun facet => length facet = 3 /\ StronglySorted le facet) fs /\
  (3 < length data ->
   exists facets_pyhull,
     ConvexHull data = inr facets_pyhull /\ sublist fs (map sort_facet facets_pyhull)).
Proof.
  intros Hrun.
  assert (Hcases : fs = [[0; 1; 2]] /\ length data = 3 \/
                   3 < length data /\ hull_facets det ConvexHull data = inr fs).
  { unfold select_facets, dim in Hrun.
    destruct (length data <? 3) eqn:Hlt; [discriminate |].
    destruct (length data =? 3) eqn:Heq.
    - left. apply Nat.eqb_eq in Heq. now injection Hrun as <-.
    - right. apply Nat.ltb_ge in Hlt. apply Nat.eqb_neq in Heq. split; [lia | exact Hrun]. }
  destruct Hcases as [[-> Hlen] | [Hlen Hhull]].
  - split; [| lia]. constructor; [| constructor].
    split; [reflexivity |]. repeat constructor.
  - apply hull_facets_inr in Hhull as (fp & vfr & nd & Hfp & Hvert & _ & Hlow).
    apply filter_exn_inr in Hvert as [Hsub1 _].
    apply filter_exn_inr in Hlow as [Hsub2 _].
    assert (Hsub : sublist fs (map sort_facet fp)) by (etransitivity; eassumption).
    split; [| eauto].
    eapply Forall_of_sublist; [exact Hsub |].
    apply Forall_forall. intros facet Hin.
    apply list_elem_of_In, in_map_iff in Hin as (f & <- & _). apply sort_facet_shape.
Qed.

(** X5. Every vertex of every facet of a constructed diagram is an index
    into [qhull_entries] and into [qhull_data]. *)
Theorem facet_vertices_in_range
    (h h' : heap) (entries : list ref) (comp_dict : list (string * R))
    (d : PourbaixDiagram) :
  __init__ solve det ConvexHull h entries comp_dict = inr (d, h') ->
  forall facet v, facet ∈ facets d -> v ∈ facet ->
    v < length (qhull_entries d) /\ v < length (qhull_data d).
Proof.
  intros Hrun facet v Hfacet Hv.
  apply construction_inr in Hrun
    as (comps & h0 & _ & _ & _ & _ & Hprocess & _ & Hassemble & _).
  apply process_conv_hull_data_inr in Hprocess as (Haligned & _).
  apply assemble_valid in Hassemble.
  rewrite Forall_forall in Hassemble. specialize (Hassemble facet Hfacet).
  rewrite Forall_forall in Hassemble. specialize (Hassemble v Hv).
  split; [exact Hassemble |]. now rewrite (Forall2_length _ _ _ Haligned).
Qed.

(** X6. Every facet of a constructed diagram has three vertices in
    ascending order.  With more than 3 hull points the facets are facets of
    the hull primitive, each sorted, in the order the primitive gave them:
    the two filters only remove facets. *)
Theorem facets_are_sorted_hull_facets
    (h h' : heap) (entries : list ref) (comp_dict : list (string * R))
    (d : PourbaixDiagram) :
  __init__ solve det ConvexHull h entries comp_dict = inr (d, h') ->
  Forall (fun facet => length facet = 3 /\ StronglySorted le facet) (facets d) /\
  (3 < length (qhull_data d) ->
   exists facets_pyhull,
     ConvexHull (qhull_data d) = inr facets_pyhull /\
     sublist (facets d) (map sort_facet facets_pyhull)).
Proof.
  intros Hrun.
  apply construction_inr in Hrun
    as (comps & h0 & _ & _ & _ & _ & _ & Hselect & _).
  now apply select_facets_shape.
Qed.

(** X7. The stable entries of a constructed diagram are among its
    processed entries, and the diagram has no stable entry exactly when it
    has no facet. *)
Theorem stable_entries_among_processed
    (h h' : heap) (entries : list ref) (comp_dict : list (string * R))
    (d : PourbaixDiagram) :
  __init__ solve det ConvexHull h entries comp_dict = inr (d, h') ->
  (forall e, e ∈ stable_entries d -> e ∈ all_entries d) /\
  (stable_entries d = ∅ <-> facets d = []).
Proof.
  intros Hrun.
  apply construction_inr in Hrun
    as (comps & h0 & _ & _ & _ & _ & Hprocess & Hselect & Hassemble & _).
  apply process_conv_hull_data_inr in Hprocess as (_ & Hperm & _).
  pose proof (assemble_valid _ _ _ Hassemble) as Hvalid.
  apply select_facets_shape in Hselect as [Hshape _].
  apply assemble_loop in Hassemble as [_ Hst].
  split.
  - intros e He. apply Hst in He as [He | (facet & v & _ & _ & Hlookup)];
      [set_solver |].
    rewrite <- Hperm. eapply list_elem_of_lookup_2, Hlookup.
  - split.
    + intros Hempty. destruct (facets d) as [| facet rest] eqn:Hfs; [reflexivity |].
      exfalso.
      apply Forall_inv in Hshape as [Hlen _]. apply Forall_inv in Hvalid.
      destruct facet as [| v facet]; [discriminate |].
      apply Forall_inv in Hvalid.
      destruct (lookup_lt_is_Some_2 _ _ Hvalid) as [e He].
      assert (Hin : e ∈ stable_entries d).
      { apply Hst. right. exists (v :: facet), v. repeat split; [left | left | exact He]. }
      rewrite Hempty in Hin. set_solver.
    + intros Hfs. apply set_eq. intros e. rewrite Hst, Hfs. set_solver.
Qed.

(** ** Multi-element mode: the objects the synthesizer allocates *)

Lemma combinations_spec {A : Type} (r : nat) (l c : list A) :
  c ∈ combinations r l -> length c = r /\ sublist c l.
Proof.
  revert r c. induction l as [| x xs IH]; intros r c Hc.
  - destruct r; simpl in Hc.
    + apply list_elem_of_singleton in Hc as ->. split; [reflexivity | constructor].
    + now apply elem_of_nil in Hc.
  - destruct r as [| r']; simpl in Hc.
    + apply list_elem_of_singleton in Hc as ->. split; [reflexivity |].
      apply sublist_nil_l.
    + apply elem_of_app in Hc as [Hc | Hc].
      * apply list_elem_of_In, in_map_iff in Hc as (c' & <- & Hc').
        apply list_elem_of_In, IH in Hc' as [Hlen Hsub]. simpl.
        split; [now rewrite Hlen | now constructor].
      * apply IH in Hc as [Hlen Hsub]. split; [exact Hlen | now constructor].
Qed.

(** The entries at ascending positions form a subsequence. *)
Lemma getitem_sublist {A : Type} (l pre : list A) (combo : list nat) (multi : list A) :
  sublist combo (seq (length pre) (length l)) ->
  Forall2 (fun j y => getitem (pre ++ l) j = inr y) combo multi ->
  sublist multi l.
Proof.
  revert pre combo multi. induction l as [| x l IH]; intros pre combo multi Hsub Hget.
  - simpl in Hsub. apply sublist_nil_r in Hsub as ->.
    apply Forall2_nil_inv_l in Hget as ->. constructor.
  - simpl in Hsub.
    assert (Hnext : forall combo' multi',
              sublist combo' (seq (S (length pre)) (length l)) ->
              Forall2 (fun j y => getitem (pre ++ x :: l) j = inr y) combo' multi' ->
              sublist multi' l).
    { intros combo' multi' Hsub' Hget'. apply (IH (pre ++ [x]) combo' multi').
      - now rewrite length_app, Nat.add_1_r.
      - now rewrite <- app_assoc. }
    inversion Hsub as [| j combo' rest Hsub' | j combo' rest Hsub']; subst.
    + apply Forall2_cons_inv_l in Hget as (y & multi' & Hy & Hget' & ->).
      apply getitem_inr in Hy. rewrite list_lookup_middle in Hy by reflexivity.
      injection Hy as <-. constructor. eapply Hnext; eassumption.
    + constructor. eapply Hnext; eassumption.
Qed.

Lemma try_combination_build_entries (h : heap) (entries : list ref)
    (elt_comp : list (string * R)) (combo : list nat)
    (multi : list ref) (weights : list R) (sts : list St) :
  try_combination solve h entries elt_comp combo = Build multi weights sts ->
  map_exn (getitem entries) combo = inr multi.
Proof.
  unfold try_combination.
  destruct (combination_system h entries elt_comp combo) as [e | [[m A] b]] eqn:Hsys;
    [discriminate |].
  assert (Hm : map_exn (getitem entries) combo = inr m).
  { unfold combination_system in Hsys. bind_inv Hsys.
    destruct x as [| entry0 others]; [discriminate |].
    bind_inv Hsys. bind_inv Hsys. bind_inv Hsys. now injection Hsys as <- _ _. }
  destruct (solve A b) as [e | ws].
  - destruct e; try discriminate. destruct (is_singular_message msg); discriminate.
  - destruct (negb _); [discriminate |].
    destruct (map_exn (attr h) m); [discriminate |].
    intros Hbuild. now injection Hbuild as <- _ _.
Qed.

Lemma last_seq (a k se : nat) :
  last (seq a k) = Some se -> k <> 0 /\ se = a + k - 1.
Proof.
  destruct k as [| k]; [discriminate |].
  rewrite seq_S, last_snoc. intros Hlast. injection Hlast as <-. lia.
Qed.

(** The store and the output of a synthesizer that returns: the new
    objects [ext] are [MultiEntry] objects, each built from the entries at
    the positions of one of the combinations, and the output lists them in
    order of allocation, the last one twice. *)
Lemma synthesizer_inr (h h0 : heap) (entries out : list ref)
    (elt_comp : list (string * R)) (comps : gmap ref (list nat)) :
  _process_multielement_entries solve h entries elt_comp = inr (out, comps, h0) ->
  exists ext,
    ext <> [] /\ h0 = h ++ ext /\
    out = seq (length h) (length ext) ++ [length h + length ext - 1] /\
    Forall (fun o => exists combo multi,
              combo ∈ combinations (length elt_comp) (seq 0 (length entries)) /\
              map_exn (getitem entries) combo = inr multi /\
              entrylist_of o = Some multi) ext.
Proof.
  unfold _process_multielement_entries. intros Hrun. bind_inv Hrun. rename x into s.
  set (combos := combinations (length elt_comp) (seq 0 (length entries))) in *.
  assert (Hinv : exists ext,
            l_heap s = h ++ ext /\
            l_processed_entries s = seq (length h) (length ext) /\
            Forall (fun o => exists combo multi,
                      combo ∈ combos /\
                      map_exn (getitem entries) combo = inr multi /\
                      entrylist_of o = Some multi) ext).
  { eapply (for_each_invariant
              (fun s : locals => exists ext,
                 l_heap s = h ++ ext /\
                 l_processed_entries s = seq (length h) (length ext) /\
                 Forall (fun o => exists combo multi,
                           combo ∈ combos /\
                           map_exn (getitem entries) combo = inr multi /\
                           entrylist_of o = Some multi) ext));
      [| | exact Hx].
    - intros acc combo acc' Hcombo (ext & Hheap & Hproc & Hall). unfold synth_step.
      destruct (try_combination _ _ _ _ _) as [| multi weights sts | e] eqn:Htry;
        simpl; intros Hstep; [| | discriminate]; injection Hstep as <-; simpl.
      + eauto.
      + apply try_combination_build_entries in Htry.
        exists (ext ++ [MultiEntry multi weights (multi_state sts weights)]).
        rewrite Hheap, Hproc, !length_app, app_assoc. simpl.
        rewrite Nat.add_1_r, seq_S. repeat split.
        apply Forall_app. split; [exact Hall |]. constructor; [| constructor].
        exists combo, multi. auto.
    - exists []. simpl. rewrite app_nil_r. repeat split. constructor. }
  destruct Hinv as (ext & Hheap & Hproc & Hall).
  pose proof (loop_super_entry solve _ _ _ (init_locals h) s eq_refl Hx) as Hse.
  destruct (l_entry_list s); [| discriminate].
  destruct (l_super_entry s) as [se |]; [| discriminate].
  injection Hrun as <- _ <-. symmetry in Hse. rewrite Hproc in Hse.
  apply last_seq in Hse as [Hk ->].
  exists ext. split; [| split; [exact Hheap | split; [now rewrite Hproc | exact Hall]]].
  intros ->. now apply Hk.
Qed.

Lemma count_occ_seq (a k e : nat) :
  count_occ Nat.eq_dec (seq a k) e = if decide (a <= e < a + k) then 1 else 0.
Proof.
  revert a. induction k as [| k IH]; intros a; simpl.
  - case_decide; [lia | reflexivity].
  - rewrite IH. destruct (Nat.eq_dec a e); repeat case_decide; lia.
Qed.

(** A loop that returns went through no failing combination. *)
Lemma loop_no_fail (h : heap) (entries : list ref) (elt_comp : list (string * R))
    (combos : list (list nat)) :
  valid_refs h entries = true ->
  forall ext s s', l_heap s = h ++ ext ->
  for_each combos s (synth_step solve entries elt_comp) = inr s' ->
  forallb (fun combo => negb (is_fail (try_combination solve h entries elt_comp combo)))
          combos = true.
Proof.
  intros Hvalid. induction combos as [| combo rest IH]; intros ext s s' Hs Hrun;
    [reflexivity |].
  cbn [for_each] in Hrun. bind_inv Hrun. unfold synth_step in Hx.
  rewrite Hs, try_combination_app in Hx by assumption.
  cbn [forallb].
  destruct (try_combination solve h entries elt_comp combo)
    as [| multi weights sts | e]; [| | discriminate]; cbn [is_fail negb andb].
  - injection Hx as <-. eapply (IH ext), Hrun. exact Hs.
  - rewrite <- Hs in Hx. cbn [alloc] in Hx. injection Hx as <-.
    eapply (IH (ext ++ [MultiEntry multi weights (multi_state sts weights)])), Hrun.
    cbn [l_heap]. now rewrite Hs, app_assoc.
Qed.

(** The store a synthesizer that returns leaves behind: the input store
    followed by the objects built for the feasible combinations. *)
Lemma synthesizer_built (h h0 : heap) (entries out : list ref)
    (elt_comp : list (string * R)) (comps : gmap ref (list nat)) :
  valid_refs h entries = true ->
  _process_multielement_entries solve h entries elt_comp = inr (out, comps, h0) ->
  h0 = h ++ built_objects solve h entries elt_comp
              (combinations (length elt_comp) (seq 0 (length entries))).
Proof.
  intros Hvalid Hrun. unfold _process_multielement_entries in Hrun.
  bind_inv Hrun. rename x into s.
  pose proof (loop_no_fail h entries elt_comp _ Hvalid [] (init_locals h) s
                (eq_sym (app_nil_r h)) Hx) as Hok.
  destruct (loop_builds solve h entries elt_comp _ Hvalid Hok [] (init_locals h))
    as (s' & Hrun' & Hheap & _); [exact (eq_sym (app_nil_r h)) |].
  rewrite Hx in Hrun'. injection Hrun' as <-.
  destruct (l_entry_list s); [| discriminate].
  destruct (l_super_entry s); [| discriminate].
  injection Hrun as _ _ <-. exact Hheap.
Qed.

(** X8. In multi-element mode the construction leaves the input entries
    as they were and extends the store by the [MultiEntry] objects the
    synthesizer constructs for the feasible combinations.  These are the
    processed entries, the last one listed twice: in the final store every
    one of them has been scaled and corrected once, except the last one,
    which has been scaled and corrected twice. *)
Theorem multi_mode_projects_last_twice
    (h h' : heap) (entries : list ref) (kv : string * R)
    (comp_dict : list (string * R)) (d : PourbaixDiagram) :
  __init__ solve det ConvexHull h entries (kv :: comp_dict) = inr (d, h') ->
  let ext := built_objects solve h (unprocessed_entries d) (_elt_comp d)
               (combinations (length (_elt_comp d))
                             (seq 0 (length (unprocessed_entries d)))) in
  ext <> [] /\
  Forall (fun o => is_Some (entrylist_of o)) ext /\
  all_entries d = seq (length h) (length ext) ++ [length h + length ext - 1] /\
  length h' = length h + length ext /\
  (forall entry, entry < length h -> h' !! entry = h !! entry) /\
  (forall i o, ext !! i = Some o ->
     h' !! (length h + i)
       = Some (Nat.iter (if decide (i = length ext - 1) then 2 else 1)
                        project_object o)).
Proof.
  intros Hrun ext.
  apply construction_inr in Hrun
    as (comps & h0 & Hperm & Hvalid & Hsynth & Hproject & _ & _ & _ & Hmode).
  rewrite Hmode in Hsynth.
  assert (Hvalid' : valid_refs h (unprocessed_entries d) = true).
  { apply valid_refs_Forall. now rewrite Hperm. }
  pose proof (synthesizer_built _ _ _ _ _ _ Hvalid' Hsynth) as Hbuilt.
  fold ext in Hbuilt.
  apply synthesizer_inr in Hsynth as (ext' & Hne & Hext' & Hall & Hmulti).
  assert (ext' = ext) as -> by (rewrite Hbuilt in Hext'; now apply app_inv_head in Hext').
  clear Hext'. subst h0.
  assert (Hlen : 0 < length ext) by (destruct ext; [congruence | simpl; lia]).
  destruct (project_loop (all_entries d) (h ++ ext)) as (h1 & Hrun1 & Hlen1 & Hlookup).
  { rewrite Hall. apply Forall_app. split.
    - apply Forall_forall. intros e He. apply elem_of_seq in He.
      rewrite length_app. lia.
    - constructor; [| constructor]. rewrite length_app. lia. }
  rewrite Hrun1 in Hproject. injection Hproject as <-.
  split; [exact Hne |]. split.
  { eapply Forall_impl; [exact Hmulti |].
    intros o (combo & multi & _ & _ & Ho). now rewrite Ho. }
  split; [exact Hall |].
  split; [now rewrite Hlen1, length_app |].
  assert (Hcount : forall e,
            count_occ Nat.eq_dec (all_entries d) e
              = (if decide (length h <= e < length h + length ext) then 1 else 0)
                + (if Nat.eq_dec (length h + length ext - 1) e then 1 else 0)).
  { intros e. rewrite Hall, count_occ_app, count_occ_seq. simpl.
    now destruct (Nat.eq_dec _ e). }
  split.
  - intros entry Hentry. rewrite Hlookup, Hcount.
    case_decide; [lia |]. destruct (Nat.eq_dec _ entry); [lia |].
    simpl. rewrite lookup_app_l by assumption. now destruct (h !! entry).
  - intros i o Hi. pose proof (lookup_lt_Some _ _ _ Hi) as Hilt.
    rewrite Hlookup, Hcount. rewrite lookup_app_r by lia.
    replace (length h + i - length h) with i by lia. rewrite Hi. simpl.
    case_decide; [| lia].
    destruct (Nat.eq_dec _ (length h + i)); case_decide; try lia; reflexivity.
Qed.

(** X9. Every element of the synthesizer's output is a [MultiEntry] made
    of as many entries as the target has elements, and these entries are a
    subsequence of the working set: they are picked at ascending positions,
    none twice. *)
Theorem multientry_constituents
    (h h0 : heap) (entries out : list ref) (elt_comp : list (string * R))
    (comps : gmap ref (list nat)) :
  _process_multielement_entries solve h entries elt_comp = inr (out, comps, h0) ->
  Forall (fun r => exists o multi,
            h0 !! r = Some o /\ entrylist_of o = Some multi /\
            length multi = length elt_comp /\ sublist multi entries) out.
Proof.
  intros Hrun. apply synthesizer_inr in Hrun as (ext & Hne & -> & -> & Hall).
  assert (Hgood : forall i o, ext !! i = Some o ->
            exists o' multi,
              (h ++ ext) !! (length h + i) = Some o' /\ entrylist_of o' = Some multi /\
              length multi = length elt_comp /\ sublist multi entries).
  { intros i o Hi. rewrite Forall_forall in Hall.
    destruct (Hall o) as (combo & multi & Hcombo & Hmulti & Hlist);
      [eapply list_elem_of_lookup_2, Hi |].
    apply combinations_spec in Hcombo as [Hlen Hsub].
    apply map_exn_inr in Hmulti.
    exists o, multi. split; [| split; [exact Hlist | split]].
    - rewrite lookup_app_r by lia. now replace (length h + i - length h) with i by lia.
    - now rewrite <- (Forall2_length _ _ _ Hmulti).
    - apply (getitem_sublist entries [] combo multi); simpl; [| exact Hmulti].
      exact Hsub. }
  assert (Hlen : 0 < length ext) by (destruct ext; [congruence | simpl; lia]).
  apply Forall_app. split.
  - apply Forall_forall. intros r Hr. apply elem_of_seq in Hr.
    destruct (lookup_lt_is_Some_2 ext (r - length h)) as [o Ho]; [lia |].
    replace r with (length h + (r - length h)) by lia. eapply Hgood, Ho.
  - constructor; [| constructor].
    destruct (lookup_lt_is_Some_2 ext (length ext - 1)) as [o Ho]; [lia |].
    replace (length h + length ext - 1) with (length h + (length ext - 1)) by lia.
    eapply Hgood, Ho.
Qed.

(** The components dictionary during the loop: its keys are the processed
    entries, and each key is mapped to the combination its constituents
    were picked at. *)
Lemma loop_components_dict (entries : list ref) (elt_comp : list (string * R))
    (combos : list (list nat)) (h : heap) (s : locals) :
  for_each combos (init_locals h) (synth_step solve entries elt_comp) = inr s ->
  (forall r, is_Some (l_components_dict s !! r) <-> r ∈ l_processed_entries s) /\
  (forall r combo, l_components_dict s !! r = Some combo ->
     exists o multi,
       l_heap s !! r = Some o /\ entrylist_of o = Some multi /\
       map_exn (getitem entries) combo = inr multi).
Proof.
  apply (for_each_invariant
           (fun s : locals =>
              (forall r, is_Some (l_components_dict s !! r) <-> r ∈ l_processed_entries s) /\
              (forall r combo, l_components_dict s !! r = Some combo ->
                 exists o multi,
                   l_heap s !! r = Some o /\ entrylist_of o = Some multi /\
                   map_exn (getitem entries) combo = inr multi))).
  - intros acc combo acc' _ [Hdom Hmap]. unfold synth_step.
    destruct (try_combination _ _ _ _ _) as [| multi weights sts | e] eqn:Htry;
      simpl; intros Hstep; [| | discriminate]; injection Hstep as <-; simpl.
    + split; assumption.
    + apply try_combination_build_entries in Htry. split.
      * intros r. rewrite elem_of_app, list_elem_of_singleton, <- Hdom.
        rewrite lookup_insert_is_Some. split.
        -- intros [Heq | [_ Hr]]; [right; congruence | now left].
        -- intros [Hr | ->]; [| now left].
           destruct (decide (length (l_heap acc) = r)); [now left | right; now split].
      * intros r combo'. unfold ref in *.
        destruct (decide (length (l_heap acc) = r)) as [<- | Hne].
        -- rewrite lookup_insert_eq. intros Hc. injection Hc as <-.
           eexists _, multi. split; [now apply list_lookup_middle |]. now split.
        -- rewrite lookup_insert_ne by assumption. intros Hc.
           destruct (Hmap r combo' Hc) as (o & m & Ho & Hm & Hg).
           exists o, m. split; [now apply lookup_app_l_Some | now split].
  - simpl. split.
    + intros r. rewrite lookup_empty. split; [intros [? Hr]; discriminate |].
      intros Hr. now apply elem_of_nil in Hr.
    + intros r combo. rewrite lookup_empty. discriminate.
Qed.

(** X10. The components dictionary the synthesizer returns has the
    elements of the output as its keys.  Every key other than the last-built
    [MultiEntry] is mapped to the combination its constituents were picked
    at; the last-built one is mapped to the last combination enumerated,
    whether or not it was built from it. *)
Theorem components_dict_of_output
    (h h0 : heap) (entries out : list ref) (elt_comp : list (string * R))
    (comps : gmap ref (list nat)) :
  _process_multielement_entries solve h entries elt_comp = inr (out, comps, h0) ->
  exists se last_combo,
    last out = Some se /\
    last (combinations (length elt_comp) (seq 0 (length entries))) = Some last_combo /\
    comps !! se = Some last_combo /\
    (forall r, is_Some (comps !! r) <-> r ∈ out) /\
    (forall r combo, r <> se -> comps !! r = Some combo ->
       exists o multi,
         h0 !! r = Some o /\ entrylist_of o = Some multi /\
         map_exn (getitem entries) combo = inr multi).
Proof.
  unfold _process_multielement_entries. intros Hrun. bind_inv Hrun. rename x into s.
  pose proof (loop_components_dict _ _ _ _ _ Hx) as [Hdom Hmap].
  pose proof (loop_entry_list solve _ _ _ _ _ Hx) as Hel.
  pose proof (loop_super_entry solve _ _ _ (init_locals h) s eq_refl Hx) as Hse.
  destruct (l_entry_list s) as [last_combo |] eqn:Hlc; [| discriminate].
  destruct (l_super_entry s) as [se |]; [| discriminate].
  injection Hrun as <- <- <-.
  exists se, last_combo. split; [apply last_snoc |]. split.
  - destruct (last (combinations _ _)); [congruence | discriminate].
  - unfold ref in *. split; [apply lookup_insert_eq |]. split.
    + intros r. rewrite lookup_insert_is_Some, elem_of_app, list_elem_of_singleton, Hdom.
      symmetry in Hse. apply last_Some in Hse as [l' Hl'].
      split.
      * intros [<- | [_ Hr]]; [now right | now left].
      * intros [Hr | ->]; [| now left].
        destruct (decide (se = r)); [now left | right; now split].
    + intros r combo Hne. rewrite lookup_insert_ne by congruence. apply Hmap.
Qed.

Lemma combinations_short {A : Type} (r : nat) (l : list A) :
  length l < r -> combinations r l = [].
Proof.
  revert r. induction l as [| x xs IH]; intros r Hlt.
  - destruct r; [simpl in Hlt; lia | reflexivity].
  - destruct r as [| r']; [simpl in Hlt; lia |]. simpl in *.
    rewrite (IH r') by lia. rewrite (IH (S r')) by lia. reflexivity.
Qed.

(** X11. A target with more elements than there are entries leaves nothing
    to enumerate: the synthesizer raises the unbound-local error for
    [entry_list]. *)
Theorem more_elements_than_entries
    (h : heap) (entries : list ref) (elt_comp : list (string * R)) :
  length entries < length elt_comp ->
  _process_multielement_entries solve h entries elt_comp
    = inl (UnboundLocalError "entry_list").
Proof.
  intros Hlt. unfold _process_multielement_entries.
  rewrite combinations_short by (now rewrite length_seq). reflexivity.
Qed.

(** X12. A target of one element gives every combination an empty linear
    system.  When [np.linalg.solve] rejects the empty system with a
    [LinAlgError] that is not about a singular matrix, the synthesizer
    raises "Unknown Error message!" as soon as the first entry has a
    reduction factor other than zero: no diagram can be built for such a
    target. *)
Theorem one_element_target_fails
    (h : heap) (entry0 : ref) (rest : list ref) (st0 : St)
    (el : string) (c : R) (msg : string) :
  attr h entry0 = inr st0 ->
  feq (red_fac_of st0) f0 = false ->
  solve [] [] = inl (LinAlgError msg) ->
  is_singular_message msg = false ->
  _process_multielement_entries solve h (entry0 :: rest) [(el, c)]
    = inl (StandardError "Unknown Error message!").
Proof.
  intros Hattr Hfac Hsolve Hmsg.
  assert (Hb : system_b [(el, c)] st0 = inr []).
  { unfold system_b, sum_nel_of. cbn [map fst for_each].
    unfold reduced_amount, pydiv. now rewrite Hfac. }
  assert (Hsys : combination_system h (entry0 :: rest) [(el, c)] [0]
                 = inr ([entry0], [], [])).
  { unfold combination_system.
    change (map_exn (getitem (entry0 :: rest)) [0]) with (@inr exn _ [entry0]).
    cbn [bind]. rewrite Hattr. cbn [bind]. rewrite Hb. reflexivity. }
  assert (Hstep : synth_step solve (entry0 :: rest) [(el, c)] (init_locals h) [0]
                  = inl (StandardError "Unknown Error message!")).
  { unfold synth_step, try_combination. cbn [l_heap init_locals].
    now rewrite Hsys, Hsolve, Hmsg. }
  assert (Hcombos : exists post,
            combinations 1 (seq 0 (length (entry0 :: rest))) = [0] :: post).
  { simpl. destruct (seq 1 (length rest)); simpl; eauto. }
  destruct Hcombos as [post Hcombos].
  unfold _process_multielement_entries. change (length [(el, c)]) with 1.
  rewrite Hcombos. cbn [for_each]. now rewrite Hstep.
Qed.

End MakerMore.

Module WitnessMore.
Import QNum Sample.

Lemma entries_reordered_not_lost_witness :
  exists d h',
    construct corners [0; 1; 2; 3] [] = inr (d, h') /\
    unprocessed_entries d ≡ₚ [0; 1; 2; 3] /\
    all_entries d = unprocessed_entries d /\
    qhull_entries d ≡ₚ [0; 1; 2; 3] /\
    length (qhull_data d) = 4.
Proof.
  edestruct entries_reordered_not_lost with (solve := @solve_ref Q _)
      (det := @det_ref Q _) (ConvexHull := @simplex_hull Q) (h := corners)
      (entries := [0; 1; 2; 3]) (comp_dict := @nil (string * Q)) as [Hperm Hsingle];
    [vm_compute; reflexivity |].
  eexists _, _. split; [vm_compute; reflexivity |].
  split; [exact Hperm |]. apply Hsingle. reflexivity.
Defined.

Lemma single_mode_projects_each_occurrence_witness :
  exists d h',
    construct scaled [0; 1; 1] [] = inr (d, h') /\
    length h' = 3 /\
    (forall entry,
       h' !! entry
         = Nat.iter (count_occ Nat.eq_dec [0; 1; 1] entry) project_object
             <$> scaled !! entry).
Proof.
  eexists _, _. split; [vm_compute; reflexivity |].
  eapply (single_mode_projects_each_occurrence solve_ref det_ref simplex_hull
            scaled _ [0; 1; 1]).
  vm_compute. reflexivity.
Defined.

Lemma fewer_than_three_entries_rejected_witness :
  valid_refs corners [0; 1] = true /\
  existsb (bad_phase corners) [0; 1] = false /\
  [0; 1] <> [] /\
  length [0; 1] < 3 /\
  construct corners [0; 1] [] = inl (StandardError insufficient_msg).
Proof.
  split; [reflexivity |]. split; [reflexivity |].
  split; [discriminate |]. split; [simpl; lia |].
  apply (fewer_than_three_entries_rejected solve_ref det_ref simplex_hull
           corners [0; 1]);
    [reflexivity | reflexivity | discriminate | simpl; lia].
Defined.

Lemma three_entries_all_stable_witness :
  valid_refs corners [0; 1; 2] = true /\
  existsb (bad_phase corners) [0; 1; 2] = false /\
  length [0; 1; 2] = 3 /\
  exists d h',
    construct corners [0; 1; 2] [] = inr (d, h') /\
    facets d = [[0; 1; 2]] /\
    (forall v, v ∈ vertices d <-> v < 3) /\
    (forall e, e ∈ stable_entries d <-> e ∈ [0; 1; 2]).
Proof.
  split; [reflexivity |]. split; [reflexivity |]. split; [reflexivity |].
  apply (three_entries_all_stable solve_ref det_ref simplex_hull corners [0; 1; 2]);
    reflexivity.
Defined.

Lemma facet_vertices_in_range_witness :
  exists d h',
    construct corners [0; 1; 2; 3] [] = inr (d, h') /\
    forall facet v, facet ∈ facets d -> v ∈ facet ->
      v < length (qhull_entries d) /\ v < length (qhull_data d).
Proof.
  eexists _, _. split; [vm_compute; reflexivity |].
  eapply (facet_vertices_in_range solve_ref det_ref simplex_hull
            corners _ [0; 1; 2; 3] []).
  vm_compute. reflexivity.
Defined.

Lemma facets_are_sorted_hull_facets_witness :
  exists d h',
    construct corners [0; 1; 2; 3] [] = inr (d, h') /\
    Forall (fun facet => length facet = 3 /\ StronglySorted le facet) (facets d) /\
    3 < length (qhull_data d) /\
    exists facets_pyhull,
      simplex_hull (qhull_data d) = inr facets_pyhull /\
      sublist (facets d) (map sort_facet facets_pyhull).
Proof.
  edestruct facets_are_sorted_hull_facets with (solve := @solve_ref Q _)
      (det := @det_ref Q _) (ConvexHull := @simplex_hull Q) (h := corners)
      (entries := [0; 1; 2; 3]) (comp_dict := @nil (string * Q)) as [Hshape Hhull];
    [vm_compute; reflexivity |].
  eexists _, _. split; [vm_compute; reflexivity |].
  split; [exact Hshape |]. split; [vm_compute; lia |].
  apply Hhull. vm_compute. lia.
Defined.

Lemma stable_entries_among_processed_witness :
  exists d h',
    construct corners [0; 1; 2; 3] [] = inr (d, h') /\
    (forall e, e ∈ stable_entries d -> e ∈ all_entries d) /\
    (stable_entries d = ∅ <-> facets d = []).
Proof.
  eexists _, _. split; [vm_compute; reflexivity |].
  eapply (stable_entries_among_processed solve_ref det_ref simplex_hull
            corners _ [0; 1; 2; 3] []).
  vm_compute. reflexivity.
Defined.

Lemma multi_mode_projects_last_twice_witness :
  exists d h',
    construct wet_alloy [0; 1; 2; 3] half_half = inr (d, h') /\
    (let ext := built_objects solve_ref wet_alloy (unprocessed_entries d) (_elt_comp d)
                  (combinations (length (_elt_comp d))
                                (seq 0 (length (unprocessed_entries d)))) in
     ext <> [] /\
     Forall (fun o => is_Some (entrylist_of o)) ext /\
     all_entries d = seq 4 (length ext) ++ [4 + length ext - 1] /\
     length h' = 4 + length ext /\
     (forall entry, entry < 4 -> h' !! entry = wet_alloy !! entry) /\
     (forall i o, ext !! i = Some o ->
        h' !! (4 + i)
          = Some (Nat.iter (if decide (i = length ext - 1) then 2 else 1)
                           project_object o))) /\
    exists o4 o5,
      built_objects solve_ref wet_alloy [0; 1; 2; 3] half_half (combinations 2 (seq 0 4))
        = [o4; o5] /\
      h' !! 4 = Some (project_object o4) /\
      h' !! 5 = Some (project_object (project_object o5)) /\
      e_correction (state_of (project_object o5)) = 73749 # 20000 /\
      e_correction (state_of (project_object (project_object o5))) = 73749 # 10000.
Proof.
  eexists _, _. split; [vm_compute; reflexivity |]. split.
  - eapply (multi_mode_projects_last_twice solve_ref det_ref simplex_hull
              wet_alloy _ [0; 1; 2; 3] ("Fe", 1 # 2) [("Cr", 1 # 2)]).
    vm_compute. reflexivity.
  - eexists _, _. split; [vm_compute; reflexivity |].
    repeat split; vm_compute; reflexivity.
Defined.

Lemma multientry_constituents_witness :
  exists out comps h0,
    synthesize alloy [0; 1; 2; 3] half_half = inr (out, comps, h0) /\
    Forall (fun r => exists o multi,
              h0 !! r = Some o /\ entrylist_of o = Some multi /\
              length multi = 2 /\ sublist multi [0; 1; 2; 3]) out.
Proof.
  eexists _, _, _. split; [vm_compute; reflexivity |].
  eapply (multientry_constituents solve_ref alloy _ [0; 1; 2; 3] _ half_half).
  vm_compute. reflexivity.
Defined.

Lemma components_dict_of_output_witness :
  exists out comps h0 se last_combo,
    synthesize alloy [0; 1; 2; 3] half_half = inr (out, comps, h0) /\
    last out = Some se /\
    last (combinations 2 (seq 0 4)) = Some last_combo /\
    comps !! se = Some last_combo /\
    (forall r, is_Some (comps !! r) <-> r ∈ out) /\
    (forall r combo, r <> se -> comps !! r = Some combo ->
       exists o multi,
         h0 !! r = Some o /\ entrylist_of o = Some multi /\
         map_exn (getitem [0; 1; 2; 3]) combo = inr multi).
Proof.
  edestruct components_dict_of_output with (solve := @solve_ref Q _) (h := alloy)
      (entries := [0; 1; 2; 3]) (elt_comp := half_half)
    as (se & last_combo & Hdict); [vm_compute; reflexivity |].
  eexists _, _, _, se, last_combo. split; [vm_compute; reflexivity |]. exact Hdict.
Defined.

Lemma more_elements_than_entries_witness :
  length [0] < length half_half /\
  synthesize alloy [0] half_half = inl (UnboundLocalError "entry_list").
Proof.
  split; [simpl; lia |].
  apply (more_elements_than_entries solve_ref alloy [0] half_half). simpl. lia.
Defined.

Lemma one_element_target_fails_witness :
  exists st0,
    attr alloy 0 = inr st0 /\
    feq (red_fac_of st0) (f0 : Q) = false /\
    solve_ref (R := Q) [] [] = inl (LinAlgError shape_message) /\
    is_singular_message shape_message = false /\
    synthesize alloy [0; 1; 2; 3] [("Fe", 1%Q)]
      = inl (StandardError "Unknown Error message!").
Proof.
  eexists. split; [reflexivity |]. split; [reflexivity |].
  split; [reflexivity |]. split; [reflexivity |].
  eapply (one_element_target_fails solve_ref alloy 0 [1; 2; 3] _ "Fe" 1%Q shape_message);
    reflexivity.
Defined.

End WitnessMore.
